(** * multiprocessing/util.py: finalizers, after-fork hooks and the exit function

    A shallow embedding of the finalization part of
    [Lib/multiprocessing/util.py]: the class [Finalize] with its registry and
    counter, [_run_finalizers], [_run_after_forkers], [register_after_fork],
    [is_exiting] and [_exit_function].

    Python objects with identity ([Finalize] instances) live in a heap and are
    named by their address; the registry maps keys to addresses, so a handle
    kept by a caller and the registry entry alias the same instance.  Module
    state is threaded through a small state/exception/trace monad.  User
    callbacks and the [process] module are collaborators: their behaviour is
    taken from an [Environment].  A callback acts on the outside world and
    returns or raises; it does not re-enter this module.  The collector
    calling the callback of a weak reference is a call of the instance.

    An exception carries its class, so that [except KeyError] and
    [except Exception] catch what they catch in Python and let the rest
    through.  Interpreter teardown, which rebinds module globals to [None],
    is no operation of the module; the states it leaves behind are states of
    the model, and the guards against them are modelled. *)

From Stdlib Require Import ZArith List Lia Permutation Sorted.
From stdpp Require Import base gmap list strings.

Local Open Scope Z_scope.

(** ** Python values and exceptions *)

(** Object identities ([id(obj)]) and function objects. *)
Definition Obj := nat.
Definition Callback := nat.
Definition Pid := nat.
(** Address of a [Finalize] instance. *)
Definition Fid := nat.

(** The values that flow through this module.  [PyInt] stands for every
    instance of [int], [bool] included (by its integer value). *)
Inductive PyVal :=
| PyNone
| PyInt (z : Z)
| PyFloat (mantissa exponent : Z)
| PyStr (s : string)
| PyObj (o : Obj).

#[global] Instance PyVal_eq_dec : EqDecision PyVal.
Proof. solve_decision. Defined.

Definition is_None (v : PyVal) : bool :=
  match v with PyNone => true | _ => false end.

(** [isinstance(v, int)] *)
Definition isinstance_int (v : PyVal) : bool :=
  match v with PyInt _ => true | _ => false end.

(** Exception classes.  The last four derive from [BaseException] only. *)
Inductive ExnClass :=
| TypeError | ValueError | KeyError | AttributeError
| OtherException (name : string)
| SystemExit | KeyboardInterrupt | GeneratorExit
| OtherBaseException (name : string).

Record Exn := mkExn { exn_class : ExnClass; exn_args : list PyVal }.

(** [isinstance(e, Exception)]: what [except Exception] catches. *)
Definition is_Exception (e : Exn) : bool :=
  match exn_class e with
  | SystemExit | KeyboardInterrupt | GeneratorExit | OtherBaseException _ => false
  | _ => true
  end.

(** [isinstance(e, KeyError)]: what [except KeyError] catches. *)
Definition is_KeyError (e : Exn) : bool :=
  match exn_class e with KeyError => true | _ => false end.

(** Outcome of a call: a value, or an exception on its way up. *)
Inductive Result (A : Type) :=
| Returned (a : A)
| Propagated (e : Exn).
Arguments Returned {A} a.
Arguments Propagated {A} e.

(** ** Data of the module *)

(** [self._key = (exitpriority, next(_finalizer_counter))] *)
Definition Key : Type := option Z * nat.

(** Key of [_afterfork_registry]: [(next(_afterfork_counter), id(obj), func)] *)
Definition AfterForkKey : Type := nat * Obj * Callback.

Definition Kwargs := list (string * PyVal).

(** Attributes of a [Finalize] instance; [None] is Python's [None] (or, for
    [_weakref], an attribute that was never set). *)
Record FinalizeObj := mkFinalize {
  _weakref : option Obj;
  _callback : option Callback;
  _args : option (list PyVal);
  _kwargs : option Kwargs;
  _key : option Key;
  _pid : Pid
}.

(** Handles of the [process] module. *)
Record Process := mkProcess { name : string; daemon : bool }.

(** Log levels and the messages this part of the module emits. *)
Definition SUBDEBUG : Z := 5.
Definition DEBUG : Z := 10.
Definition INFO : Z := 20.

Inductive Message :=
| finalizer_no_longer_registered
| finalizer_ignored_because_different_process
| finalizer_calling (cb : option Callback) (args : option (list PyVal))
    (kwargs : option Kwargs)
| calling (finalizer : Fid)
| after_forker_raised_exception (e : Exn)
| process_shutting_down
| running_all_atexit_finalizers_with_priority_ge_0
| calling_terminate_for_daemon (pname : string)
| calling_join_for_process (pname : string)
| running_the_remaining_atexit_finalizers.

(** What a run does to the outside, in order. *)
Inductive Event :=
| EvLog (level : Z) (m : Message)
| EvCallback (self : Fid) (cb : Callback) (args : list PyVal) (kwargs : Kwargs)
| EvAfterFork (func : Callback) (obj : Obj)
| EvTraceback (e : Exn)
| EvTerminate (p : Process)
| EvJoin (p : Process).

(** Module globals, the heap of [Finalize] instances and the outside world.
    [finalizer_registry_bound] is false once interpreter teardown has rebound
    the global [_finalizer_registry] to [None]; the dictionary itself stays
    reachable from the default arguments of [Finalize.__call__].  [_exiting]
    is [False], [True] or (after teardown) [None]. *)
Record State (World : Type) := mkState {
  _finalizer_registry : gmap Key Fid;
  finalizer_registry_bound : bool;
  _finalizer_counter : nat;
  _afterfork_registry : gmap AfterForkKey Obj;
  _afterfork_counter : nat;
  _exiting : option bool;
  heap : list FinalizeObj;
  os_getpid : Pid;
  world : World
}.
Arguments mkState {World}.
Arguments _finalizer_registry {World}.
Arguments finalizer_registry_bound {World}.
Arguments _finalizer_counter {World}.
Arguments _afterfork_registry {World}.
Arguments _afterfork_counter {World}.
Arguments _exiting {World}.
Arguments heap {World}.
Arguments os_getpid {World}.
Arguments world {World}.

(** The collaborators: calling a user function, and the [process] module. *)
Class Environment (World : Type) := {
  call : Callback -> list PyVal -> Kwargs -> World -> Result PyVal * World;
  current_process : World -> option Process;
  active_children : World -> list Process * World;
  terminate : Process -> World -> World;
  join : Process -> World -> World
}.

(** The module as first imported in process [p]. *)
Definition initial {World} (p : Pid) (w : World) : State World :=
  mkState ∅ true 0%nat ∅ 0%nat (Some false) [] p w.

(** ** The monad: state, exceptions and a trace of events *)

Definition M (World A : Type) : Type :=
  State World -> Result A * State World * list Event.

Section Monad.
Context {World : Type}.
#[local] Abbreviation M := (M World).

Definition ret {A} (a : A) : M A := fun s => (Returned a, s, []).

Definition bind {A B} (m : M A) (k : A -> M B) : M B := fun s =>
  match m s with
  | (Returned a, s1, t1) =>
      let '(r, s2, t2) := k a s1 in (r, s2, t1 ++ t2)
  | (Propagated e, s1, t1) => (Propagated e, s1, t1)
  end.

Definition raise {A} (e : Exn) : M A := fun s => (Propagated e, s, []).

Definition emit (ev : Event) : M unit := fun s => (Returned tt, s, [ev]).

Definition get : M (State World) := fun s => (Returned s, s, []).

Definition modify (f : State World -> State World) : M unit :=
  fun s => (Returned tt, f s, []).

(** [try: body / except <caught> as e: handler e / else: orelse] *)
Definition try_except_else {A B} (body : M A) (caught : Exn -> bool)
    (handler : Exn -> M B) (orelse : A -> M B) : M B := fun s =>
  match body s with
  | (Returned a, s1, t1) =>
      let '(r, s2, t2) := orelse a s1 in (r, s2, t1 ++ t2)
  | (Propagated e, s1, t1) =>
      if caught e
      then let '(r, s2, t2) := handler e s1 in (r, s2, t1 ++ t2)
      else (Propagated e, s1, t1)
  end.

(** [try: body / except <caught> as e: handler e] *)
Definition try_except {A} (body : M A) (caught : Exn -> bool)
    (handler : Exn -> M A) : M A :=
  try_except_else body caught handler ret.

(** [for x in l: body x] *)
Fixpoint for_each {A} (l : list A) (body : A -> M unit) : M unit :=
  match l with
  | [] => ret tt
  | x :: l' => bind (body x) (fun _ => for_each l' body)
  end.
End Monad.

(** A relation between the state before, the state after and the trace
    holds of every run of [m]. *)
Definition keeps {World} (R : State World -> State World -> list Event -> Prop)
    {A} (m : M World A) : Prop :=
  forall s r s' t, m s = (r, s', t) -> R s s' t.

(** stdpp's notations [x ← m; k] and [m ;; k] for this monad. *)
#[global] Instance M_ret {World} : MRet (M World) := fun A a => ret a.
#[global] Instance M_bind {World} : MBind (M World) := fun A B k m => bind m k.

(** ** Sorting: [list.sort()] and [list.sort(reverse=True)] *)

(** Stable insertion; [before h x] says that [h] has to stay ahead of [x]. *)
Fixpoint insert_by {A} (before : A -> A -> bool) (x : A) (l : list A) : list A :=
  match l with
  | [] => [x]
  | h :: t => if before h x then h :: insert_by before x t else x :: h :: t
  end.

Definition sort_by {A} (before : A -> A -> bool) (l : list A) : list A :=
  foldr (insert_by before) [] l.

(** [a] may stand ahead of [b] in a list sorted with [before]. *)
Definition may_precede {A} (before : A -> A -> bool) (a b : A) : Prop :=
  before b a = false.

(** Tuple comparison [a < b] on keys whose first component is an [int].  The
    keys that reach the sort have passed the filter [p[0] is not None]. *)
Definition key_ltb (a b : Key) : bool :=
  match a.1, b.1 with
  | Some p, Some q => (p <? q) || ((p =? q) && (a.2 <? b.2)%nat)
  | None, Some _ => true
  | _, None => false
  end.

(** Tuple comparison on the items [((index, ident, func), obj)] of the
    after-fork registry, component by component.  The counter makes [index]
    unique, so that Python never gets to compare two functions; here they
    compare by identity. *)
Definition item_ltb (a b : AfterForkKey * Obj) : bool :=
  let '((i1, o1, f1), v1) := a in
  let '((i2, o2, f2), v2) := b in
  (i1 <? i2)%nat || ((i1 =? i2)%nat &&
    ((o1 <? o2)%nat || ((o1 =? o2)%nat &&
      ((f1 <? f2)%nat || ((f1 =? f2)%nat && (v1 <? v2)%nat))))).

(** [l.sort()] *)
Definition sort {A} (ltb : A -> A -> bool) (l : list A) : list A :=
  sort_by ltb l.

(** [l.sort(reverse=True)] *)
Definition sort_reverse {A} (ltb : A -> A -> bool) (l : list A) : list A :=
  sort_by (fun h x => ltb x h) l.

(** ** The module's functions *)

Section Util.
Context {World : Type} {env : Environment World}.
#[local] Abbreviation M := (M World).

(** Logging: a call to the logging collaborator. *)
Definition sub_debug (m : Message) : M unit := emit (EvLog SUBDEBUG m).
Definition debug (m : Message) : M unit := emit (EvLog DEBUG m).
Definition info (m : Message) : M unit := emit (EvLog INFO m).

(** [os.getpid()] *)
Definition getpid : M Pid := fun s => (Returned (os_getpid s), s, []).

(** Attribute access on the instance at address [self].  An address that
    names no instance has no counterpart in Python; the model raises. *)
Definition load (self : Fid) : M FinalizeObj := fun s =>
  match heap s !! self with
  | Some fin => (Returned fin, s, [])
  | None => (Propagated (mkExn AttributeError []), s, [])
  end.

Definition set_heap (h : list FinalizeObj) (s : State World) : State World :=
  mkState (_finalizer_registry s) (finalizer_registry_bound s)
    (_finalizer_counter s) (_afterfork_registry s) (_afterfork_counter s)
    (_exiting s) h (os_getpid s) (world s).

Definition set_finalizer_registry (r : gmap Key Fid) (s : State World)
    : State World :=
  mkState r (finalizer_registry_bound s)
    (_finalizer_counter s) (_afterfork_registry s) (_afterfork_counter s)
    (_exiting s) (heap s) (os_getpid s) (world s).

Definition set_finalizer_counter (n : nat) (s : State World) : State World :=
  mkState (_finalizer_registry s) (finalizer_registry_bound s)
    n (_afterfork_registry s) (_afterfork_counter s)
    (_exiting s) (heap s) (os_getpid s) (world s).

Definition set_afterfork (r : gmap AfterForkKey Obj) (n : nat)
    (s : State World) : State World :=
  mkState (_finalizer_registry s) (finalizer_registry_bound s)
    (_finalizer_counter s) r n
    (_exiting s) (heap s) (os_getpid s) (world s).

Definition set_exiting (b : option bool) (s : State World) : State World :=
  mkState (_finalizer_registry s) (finalizer_registry_bound s)
    (_finalizer_counter s) (_afterfork_registry s) (_afterfork_counter s)
    b (heap s) (os_getpid s) (world s).

Definition set_world (w : World) (s : State World) : State World :=
  mkState (_finalizer_registry s) (finalizer_registry_bound s)
    (_finalizer_counter s) (_afterfork_registry s) (_afterfork_counter s)
    (_exiting s) (heap s) (os_getpid s) w.

(** The module as a forked child finds it: a copy, under another process
    id. *)
Definition forked (child : Pid) (s : State World) : State World :=
  mkState (_finalizer_registry s) (finalizer_registry_bound s)
    (_finalizer_counter s) (_afterfork_registry s) (_afterfork_counter s)
    (_exiting s) (heap s) child (world s).

(** [self.<attributes> = ...] *)
Definition store (self : Fid) (fin : FinalizeObj) : M unit :=
  modify (fun s => set_heap (<[self := fin]> (heap s)) s).

(** [next(_finalizer_counter)] *)
Definition next_finalizer_counter : M nat := fun s =>
  (Returned (_finalizer_counter s),
   set_finalizer_counter (S (_finalizer_counter s)) s, []).

(** [del _finalizer_registry[key]]; no stored key equals [None]. *)
Definition del_finalizer_registry (key : option Key) : M unit := fun s =>
  match key with
  | Some k =>
      match _finalizer_registry s !! k with
      | Some _ =>
          (Returned tt,
           set_finalizer_registry (delete k (_finalizer_registry s)) s, [])
      | None => (Propagated (mkExn KeyError []), s, [])
      end
  | None => (Propagated (mkExn KeyError []), s, [])
  end.

(** A call of a user function, on the outside world. *)
Definition call_function (f : Callback) (args : list PyVal) (kwargs : Kwargs)
    : M PyVal := fun s =>
  let '(r, w) := call f args kwargs (world s) in (r, set_world w s, []).

(** [self._weakref = self._callback = self._args = self._kwargs =
     self._key = None] *)
Definition cleared (fin : FinalizeObj) : FinalizeObj :=
  mkFinalize None None None None None (_pid fin).

(** The first component of the key, for an [exitpriority] that passed the
    type check: an [int] or [None]. *)
Definition priority_of (exitpriority : PyVal) : option Z :=
  match exitpriority with PyInt z => Some z | _ => None end.

(** [kwargs or {}] *)
Definition or_empty (kwargs : option Kwargs) : Kwargs :=
  match kwargs with Some (x :: l) => x :: l | _ => [] end.

(** State after a successful [Finalize(obj, callback, args, kwargs,
    exitpriority)]. *)
Definition registered (obj : option Obj) (callback : Callback)
    (args : list PyVal) (kwargs : option Kwargs) (exitpriority : PyVal)
    (s : State World) : State World :=
  let key := (priority_of exitpriority, _finalizer_counter s) in
  let s1 := set_finalizer_counter (S (_finalizer_counter s)) s in
  let s2 := set_heap (heap s ++
    [mkFinalize obj (Some callback) (Some args) (Some (or_empty kwargs))
       (Some key) (os_getpid s)]) s1 in
  set_finalizer_registry (<[key := length (heap s)]> (_finalizer_registry s)) s2.

(** State after [del _finalizer_registry[k]]. *)
Definition removed (k : Key) (s : State World) : State World :=
  set_finalizer_registry (delete k (_finalizer_registry s)) s.

(** State after the attributes of [self] were set to [None]. *)
Definition with_cleared (self : Fid) (fin : FinalizeObj) (s : State World)
    : State World :=
  set_heap (<[self := cleared fin]> (heap s)) s.

(** The instance at [self] exists and its key is not in the registry. *)
Definition unregistered (self : Fid) (s : State World) : Prop :=
  ∃ fin, heap s !! self = Some fin ∧
    ∀ k, _key fin = Some k → _finalizer_registry s !! k = None.
End Util.

(** *** class Finalize *)

Module Finalize.
Section Finalize.
Context {World : Type} {env : Environment World}.
#[local] Abbreviation M := (M World).

(** [Finalize(obj, callback, args, kwargs, exitpriority)]: the instance is
    allocated, then initialised; it comes into the heap when [__init__]
    returns, and is dropped when [__init__] raises.  An owner is an object
    that can be weakly referenced. *)
Definition __init__ (obj : option Obj) (callback : Callback)
    (args : list PyVal) (kwargs : option Kwargs) (exitpriority : PyVal)
    : M Fid :=
  if negb (is_None exitpriority) && negb (isinstance_int exitpriority)
  then raise (mkExn TypeError [exitpriority])
  else
    weakref ← match obj with
              | Some o => ret (Some o)
              | None =>
                  if is_None exitpriority
                  then raise (mkExn ValueError
                         [PyStr "Without object, exitpriority cannot be None"])
                  else ret None
              end;
    n ← next_finalizer_counter;
    let key := (priority_of exitpriority, n) in
    pid ← getpid;
    s ← get;
    let self := length (heap s) in
    modify (set_heap (heap s ++
      [mkFinalize weakref (Some callback) (Some args)
         (Some (or_empty kwargs)) (Some key) pid]));;
    modify (fun s =>
      set_finalizer_registry (<[key := self]> (_finalizer_registry s)) s);;
    ret self.

(** [self()], also the callback of the weak reference to the owner. *)
Definition __call__ (self : Fid) : M PyVal :=
  fin ← load self;
  try_except_else (del_finalizer_registry (_key fin)) is_KeyError
    (fun _ =>
       sub_debug finalizer_no_longer_registered;;
       ret PyNone)
    (fun _ =>
       pid ← getpid;
       res ← (if negb (_pid fin =? pid)%nat
               then
                 sub_debug finalizer_ignored_because_different_process;;
                 ret PyNone
               else
                 sub_debug (finalizer_calling (_callback fin) (_args fin)
                              (_kwargs fin));;
                 match _callback fin, _args fin, _kwargs fin with
                 | Some cb, Some args, Some kwargs =>
                     emit (EvCallback self cb args kwargs);;
                     call_function cb args kwargs
                 | _, _, _ => raise (mkExn TypeError [])
                 end);
       store self (cleared fin);;
       ret res).

Definition cancel (self : Fid) : M unit :=
  fin ← load self;
  try_except_else (del_finalizer_registry (_key fin)) is_KeyError
    (fun _ => ret tt)
    (fun _ => store self (cleared fin)).

(** [self._key in _finalizer_registry] *)
Definition still_active (self : Fid) (s : State World) : bool :=
  match heap s !! self with
  | Some fin =>
      match _key fin with
      | Some k => bool_decide (is_Some (_finalizer_registry s !! k))
      | None => false
      end
  | None => false
  end.
End Finalize.
End Finalize.

(** *** The runners and the exit function *)

Section Runners.
Context {World : Type} {env : Environment World}.
#[local] Abbreviation M := (M World).

(** The filter [f] of [_run_finalizers]. *)
Definition selects (minpriority : option Z) (p : Key) : bool :=
  match minpriority with
  | None => bool_decide (p.1 ≠ None)
  | Some m => match p.1 with Some x => m <=? x | None => false end
  end.

(** [keys = [key for key in list(_finalizer_registry) if f(key)]] followed
    by [keys.sort(reverse=True)] *)
Definition selected_keys (minpriority : option Z) (s : State World)
    : list Key :=
  sort_reverse key_ltb
    (List.filter (selects minpriority) (map_to_list (_finalizer_registry s)).*1).

(** Body of the loop of [_run_finalizers]. *)
Definition run_finalizer (key : Key) : M unit :=
  s ← get;
  match _finalizer_registry s !! key with
  | Some finalizer =>
      sub_debug (calling finalizer);;
      try_except (Finalize.__call__ finalizer;; ret tt) is_Exception
        (fun e => emit (EvTraceback e))
  | None => ret tt
  end.

Definition _run_finalizers (minpriority : option Z) : M unit :=
  s ← get;
  if negb (finalizer_registry_bound s) then ret tt
  else
    for_each (selected_keys minpriority s) run_finalizer;;
    match minpriority with
    | None => modify (set_finalizer_registry ∅)
    | Some _ => ret tt
    end.

(** [_afterfork_registry] is a [WeakValueDictionary]: it holds the entries
    whose owner is alive, the others have left it. *)
Definition register_after_fork (obj : Obj) (func : Callback) : M unit :=
  modify (fun s =>
    set_afterfork
      (<[(_afterfork_counter s, obj, func) := obj]> (_afterfork_registry s))
      (S (_afterfork_counter s)) s).

(** Body of the loop of [_run_after_forkers]. *)
Definition run_after_forker (item : AfterForkKey * Obj) : M unit :=
  let '((index, ident, func), obj) := item in
  try_except
    (emit (EvAfterFork func obj);;
     call_function func [PyObj obj] [];;
     ret tt)
    is_Exception
    (fun e => info (after_forker_raised_exception e)).

(** [items = list(_afterfork_registry.items())] followed by [items.sort()] *)
Definition after_fork_items (s : State World) : list (AfterForkKey * Obj) :=
  sort item_ltb (map_to_list (_afterfork_registry s)).

Definition _run_after_forkers : M unit :=
  s ← get;
  for_each (after_fork_items s) run_after_forker.

(** [_exiting or _exiting is None] *)
Definition is_exiting (s : State World) : bool :=
  match _exiting s with
  | Some true => true
  | Some false => false
  | None => true
  end.

(** [not _exiting] *)
Definition not_exiting (s : State World) : bool :=
  match _exiting s with
  | Some true => false
  | Some false | None => true
  end.

Definition terminate_daemon (p : Process) : M unit :=
  if daemon p
  then
    info (calling_terminate_for_daemon (name p));;
    emit (EvTerminate p);;
    modify (fun s => set_world (terminate p (world s)) s)
  else ret tt.

Definition join_child (p : Process) : M unit :=
  info (calling_join_for_process (name p));;
  emit (EvJoin p);;
  modify (fun s => set_world (join p (world s)) s).

(** [active_children()] *)
Definition get_active_children : M (list Process) := fun s =>
  let '(ps, w) := active_children (world s) in (Returned ps, set_world w s, []).

Definition shutdown_children : M unit :=
  s ← get;
  match current_process (world s) with
  | Some _ =>
      ps ← get_active_children;
      for_each ps terminate_daemon;;
      ps ← get_active_children;
      for_each ps join_child
  | None => ret tt
  end.

Definition _exit_function : M unit :=
  s ← get;
  if not_exiting s
  then
    modify (set_exiting (Some true));;
    info process_shutting_down;;
    debug running_all_atexit_finalizers_with_priority_ge_0;;
    _run_finalizers (Some 0);;
    shutdown_children;;
    debug running_the_remaining_atexit_finalizers;;
    _run_finalizers None
  else ret tt.

(** *** Sequences of operations issued by a client *)

Inductive Op :=
| OpFinalize (obj : option Obj) (callback : Callback) (args : list PyVal)
    (kwargs : option Kwargs) (exitpriority : PyVal)
| OpCall (self : Fid)
| OpCancel (self : Fid)
| OpRunFinalizers (minpriority : option Z)
| OpRegisterAfterFork (obj : Obj) (func : Callback)
| OpRunAfterForkers
| OpExitFunction.

(** Run [m] and go on whatever its outcome (the client handles it). *)
Definition attempt {A} (m : M A) (s : State World)
    : State World * list Event :=
  let '(_, s', t) := m s in (s', t).

Definition run_op (o : Op) : State World -> State World * list Event :=
  match o with
  | OpFinalize obj cb args kwargs p =>
      attempt (Finalize.__init__ obj cb args kwargs p)
  | OpCall self => attempt (Finalize.__call__ self)
  | OpCancel self => attempt (Finalize.cancel self)
  | OpRunFinalizers m => attempt (_run_finalizers m)
  | OpRegisterAfterFork obj func => attempt (register_after_fork obj func)
  | OpRunAfterForkers => attempt _run_after_forkers
  | OpExitFunction => attempt _exit_function
  end.

Fixpoint run_ops (ops : list Op) (s : State World)
    : State World * list Event :=
  match ops with
  | [] => (s, [])
  | o :: ops' =>
      let '(s1, t1) := run_op o s in
      let '(s2, t2) := run_ops ops' s1 in
      (s2, t1 ++ t2)
  end.

(** *** Reading a trace *)

(** The [Finalize] instances whose callback was called, in order. *)
Definition callbacks_called (t : list Event) : list Fid :=
  omap (fun ev => match ev with EvCallback f _ _ _ => Some f | _ => None end) t.

(** The entries the batch runner invoked ([finalizer()]), in order. *)
Definition finalizers_invoked (t : list Event) : list Fid :=
  omap (fun ev => match ev with
                  | EvLog _ (calling f) => Some f
                  | _ => None
                  end) t.

(** The after-fork calls [func(obj)], in order. *)
Definition after_fork_calls (t : list Event) : list (Callback * Obj) :=
  omap (fun ev => match ev with
                  | EvAfterFork f o => Some (f, o)
                  | _ => None
                  end) t.

(** How often the exit sequence was entered. *)
Definition shutdowns_started (t : list Event) : nat :=
  length (List.filter
    (fun ev => match ev with
               | EvLog _ process_shutting_down => true
               | _ => false
               end) t).

(** *** Orders and shorthands used in the statements *)

(** [a > b] for keys with an integer priority: the order of
    [keys.sort(reverse=True)], highest priority first and, among equal
    priorities, highest sequence number first. *)
Definition key_gt (a b : Key) : Prop :=
  ∃ p q, a.1 = Some p ∧ b.1 = Some q ∧ (q < p ∨ (q = p ∧ (b.2 < a.2)%nat)).

(** [a < b] for items of the after-fork registry. *)
Definition item_lt (a b : AfterForkKey * Obj) : Prop := item_ltb a b = true.

(** The instances the registry holds under the given keys, in order. *)
Definition finalizers_at (keys : list Key) (s : State World) : list Fid :=
  omap (fun k => _finalizer_registry s !! k) keys.

(** Every instance was created by the current process. *)
Definition all_in_this_process (s : State World) : Prop :=
  Forall (fun fin => _pid fin = os_getpid s) (heap s).

(** The calls [func(obj)] that a list of after-fork items stands for. *)
Definition calls_of (items : list (AfterForkKey * Obj))
    : list (Callback * Obj) :=
  (fun item : AfterForkKey * Obj => (item.1.2, item.2)) <$> items.

(** The operations that register the given (owner, function) pairs for the
    fork, in order. *)
Definition register_all (regs : list (Obj * Callback)) : list Op :=
  (fun r : Obj * Callback => OpRegisterAfterFork r.1 r.2) <$> regs.

(** The calls [func(obj)] for a list of (owner, function) pairs. *)
Definition calls_for (regs : list (Obj * Callback)) : list (Callback * Obj) :=
  (fun r : Obj * Callback => (r.2, r.1)) <$> regs.

(** What the first loop of the exit function does for the children [ps]. *)
Definition terminate_events (ps : list Process) : list Event :=
  flat_map (fun p =>
    if daemon p
    then [EvLog INFO (calling_terminate_for_daemon (name p)); EvTerminate p]
    else []) ps.

Definition terminate_all (ps : list Process) (w : World) : World :=
  foldl (fun w p => if daemon p then terminate p w else w) w ps.

(** What the second loop does for the children [ps]. *)
Definition join_events (ps : list Process) : list Event :=
  flat_map (fun p =>
    [EvLog INFO (calling_join_for_process (name p)); EvJoin p]) ps.

Definition join_all (ps : list Process) (w : World) : World :=
  foldl (fun w p => join p w) w ps.

(** A run that neither touches [_exiting] nor enters the exit sequence. *)
Definition quiet (s s' : State World) (t : list Event) : Prop :=
  _exiting s' = _exiting s ∧ shutdowns_started t = 0%nat.

(** The keys left for the second batch run of the exit function: those with
    a negative priority, highest first. *)
Definition second_phase_keys (s : State World) : list Key :=
  List.filter (fun k => negb (selects (Some 0) k)) (selected_keys None s).

(** A run that changes nothing of the module, only the outside world, and
    neither invokes an instance nor calls the callback of one. *)
Definition only_world (s s' : State World) (t : list Event) : Prop :=
  (∃ w, s' = set_world w s) ∧
  callbacks_called t = [] ∧ finalizers_invoked t = [].

(** Every exception a user function raises is an instance of [Exception]. *)
Definition raises_only_Exception : Prop :=
  ∀ f args kwargs w e w',
    call f args kwargs w = (Propagated e, w') → is_Exception e = true.

(** *** Well-formed states *)

(** What holds of every state the module reaches: a registered key leads
    to an instance carrying that key and all it needs for the call; the
    counter is ahead of every sequence number handed out; no two instances
    carry the same key. *)
Record wf (s : State World) : Prop := {
  wf_registered : ∀ k f, _finalizer_registry s !! k = Some f →
    ∃ fin, heap s !! f = Some fin ∧ _key fin = Some k ∧
           is_Some (_callback fin) ∧ is_Some (_args fin) ∧
           is_Some (_kwargs fin);
  wf_counter : ∀ f fin p n, heap s !! f = Some fin →
    _key fin = Some (p, n) → (n < _finalizer_counter s)%nat;
  wf_unique : ∀ f g fin gin k, heap s !! f = Some fin →
    heap s !! g = Some gin → _key fin = Some k → _key gin = Some k → f = g;
  wf_afterfork : ∀ i o f v, _afterfork_registry s !! (i, o, f) = Some v →
    (i < _afterfork_counter s)%nat
}.
(** *** Relations used in the proofs *)

(** A run from [s] to [s'] with trace [t] keeps the state well formed,
    calls no callback twice, calls only callbacks of instances that were
    not yet unregistered and are unregistered afterwards, and leaves
    unregistered instances unregistered. *)
Record step_ok (s s' : State World) (t : list Event) : Prop := {
  ok_wf : wf s';
  ok_nodup : NoDup (callbacks_called t);
  ok_called : ∀ f, f ∈ callbacks_called t →
    ¬ unregistered f s ∧ unregistered f s';
  ok_frame : ∀ f, unregistered f s → unregistered f s'
}.

Definition good {A} (m : M A) : Prop :=
  ∀ s r s' t, wf s → m s = (r, s', t) → step_ok s s' t.
End Runners.

(** ** A concrete environment *)

Module Demo.
(** The outside world: the children still running, or [None] when the
    [process] module is gone. *)
Definition DemoWorld : Type := option (list Process).

Definition daemon_child := mkProcess "Daemon-1" true.
Definition worker_child := mkProcess "Process-2" false.

Definition same_process (p q : Process) : bool :=
  String.eqb (name p) (name q) && Bool.eqb (daemon p) (daemon q).

(** Function 7 raises a [ValueError], function 9 a [KeyboardInterrupt],
    every other function [f] returns [f]. *)
Definition demo_call (f : Callback) (args : list PyVal) (kwargs : Kwargs)
    (w : DemoWorld) : Result PyVal * DemoWorld :=
  if (f =? 7)%nat then (Propagated (mkExn ValueError [PyStr "boom"]), w)
  else if (f =? 9)%nat then (Propagated (mkExn KeyboardInterrupt []), w)
  else (Returned (PyInt (Z.of_nat f)), w).

#[global] Instance demo_env : Environment DemoWorld := {
  call := demo_call;
  current_process w :=
    match w with Some _ => Some (mkProcess "MainProcess" false) | None => None end;
  active_children w := (default [] w, w);
  terminate p w := w;
  join p w :=
    match w with
    | Some ps => Some (List.filter (fun q => negb (same_process p q)) ps)
    | None => None
    end
}.

(** The same without function 9: nothing but instances of [Exception] is
    raised. *)
Definition polite_call (f : Callback) (args : list PyVal) (kwargs : Kwargs)
    (w : DemoWorld) : Result PyVal * DemoWorld :=
  if (f =? 7)%nat then (Propagated (mkExn ValueError [PyStr "boom"]), w)
  else (Returned (PyInt (Z.of_nat f)), w).

Definition polite_env : Environment DemoWorld := {|
  call := polite_call;
  current_process := current_process (Environment := demo_env);
  active_children := active_children (Environment := demo_env);
  terminate := terminate (Environment := demo_env);
  join := join (Environment := demo_env)
|}.

Definition demo_initial : State DemoWorld :=
  initial 100%nat (Some [daemon_child; worker_child]).

(** Four entries with priorities 10, 10, 5 and none, in that order; the
    last one is bound to the object 1. *)
Definition four_entries : list Op :=
  [ OpFinalize None 1%nat [] None (PyInt 10);
    OpFinalize None 2%nat [] None (PyInt 10);
    OpFinalize None 3%nat [] None (PyInt 5);
    OpFinalize (Some 1%nat) 4%nat [] None PyNone ].

(** The module after these four registrations. *)
Definition four_registered : State DemoWorld :=
  (run_ops four_entries demo_initial).1.

(** The second of them has been invoked. *)
Definition one_invoked : State DemoWorld :=
  (run_ops [OpCall 1%nat] four_registered).1.

(** An instance bound to object 5 whose callback raises a [ValueError]. *)
Definition raising_registered : State DemoWorld :=
  (run_ops [OpFinalize (Some 5%nat) 7%nat [PyInt 1] None (PyInt 0)]
     demo_initial).1.

(** Two instances, the first to run raising a [KeyboardInterrupt], and two
    after-fork entries, the first to run raising it as well. *)
Definition interrupting_registered : State DemoWorld :=
  (run_ops [OpFinalize None 9%nat [] None (PyInt 10);
            OpFinalize None 1%nat [] None (PyInt 5);
            OpRegisterAfterFork 1%nat 9%nat;
            OpRegisterAfterFork 2%nat 1%nat] demo_initial).1.

(** Two instances, the first to run raising a [ValueError], and two
    after-fork entries, the first to run raising it as well. *)
Definition failing_registered : State DemoWorld :=
  (run_ops [OpFinalize None 7%nat [] None (PyInt 10);
            OpFinalize None 1%nat [] None (PyInt 5);
            OpRegisterAfterFork 1%nat 7%nat;
            OpRegisterAfterFork 2%nat 1%nat] demo_initial).1.
End Demo.

(** ** Other functions of the module *)

(** *** Abstract socket addresses *)

(** An address as [is_abstract_socket_namespace] tells them apart: [bytes],
    [str], or any other object, of which only the truth value matters. *)
Inductive Address :=
| AddrBytes (b : list Byte.byte)
| AddrStr (s : string)
| AddrOther (truth : bool).

(** [bool(address)] *)
Definition address_truth (address : Address) : bool :=
  match address with
  | AddrBytes b => negb (bool_decide (b = []))
  | AddrStr s => negb (String.eqb s "")
  | AddrOther truth => truth
  end.

Definition IndexError : Exn := mkExn (OtherException "IndexError") [].

Definition is_abstract_socket_namespace (address : Address) : Result bool :=
  if negb (address_truth address) then Returned false
  else
    match address with
    | AddrBytes b =>
        match b with
        | x :: _ => Returned (Byte.eqb x Byte.x00)
        | [] => Propagated IndexError
        end
    | AddrStr s =>
        match s with
        | String c _ => Returned (Ascii.eqb c Ascii.zero)
        | EmptyString => Propagated IndexError
        end
    | AddrOther _ => Propagated (mkExn TypeError [])
    end.

(** *** close_all_fds_except *)

(** The arguments [(fds[i]+1, fds[i+1])] for [i] in [range(len(fds) - 1)]. *)
Fixpoint closeranges (fds : list Z) : list (Z * Z) :=
  match fds with
  | a :: rest =>
      match rest with
      | b :: _ => (a + 1, b) :: closeranges rest
      | [] => []
      end
  | [] => []
  end.

Definition AssertionError (msg : list PyVal) : Exn :=
  mkExn (OtherException "AssertionError") msg.

(** [close_all_fds_except(fds)]: the calls [os.closerange(lo, hi)] it makes,
    in order.  [MAXFD] is the value the module computed when imported. *)
Definition close_all_fds_except (MAXFD : Z) (fds : list Z)
    : Result (list (Z * Z)) :=
  let fds := sort Z.ltb (fds ++ [-1; MAXFD]) in
  if bool_decide (last fds = Some MAXFD)
  then Returned (closeranges fds)
  else Propagated (AssertionError [PyStr "fd too large"]).

(** [os.closerange(lo, hi)] closes the descriptors from [lo] (inclusive) to
    [hi] (exclusive): what a list of such calls closes. *)
Definition closed_by (calls : list (Z * Z)) (fd : Z) : Prop :=
  ∃ c, c ∈ calls ∧ c.1 ≤ fd < c.2.

(** *** The base directory for temporary directories *)

(** [_SUN_PATH_MAX], from [sys.platform] and [os.name]. *)
Definition _SUN_PATH_MAX (sys_platform os_name : string) : option Z :=
  if String.eqb sys_platform "linux" then Some 108
  else if String.prefix "openbsd" sys_platform
          || String.prefix "freebsd" sys_platform then Some 104
  else if String.eqb os_name "nt" then None else Some 92.

(** What [_get_base_temp_dir] uses of the [tempfile] module it is given:
    [gettempdir()], and [_get_default_tempdir(dirlist)], where [None] stands
    for [FileNotFoundError]. *)
Record Tempfile := mkTempfile {
  gettempdir : string;
  _get_default_tempdir : list string -> option string
}.

(** The two warnings of [_get_base_temp_dir]. *)
Inductive TempWarning :=
| temporary_directory_not_usable (base_tempdir : string) (dirlist : list string)
| ignoring_user_defined_temporary_directory (base_tempdir : string).

Definition dirlist : list string := ["/tmp"; "/var/tmp"; "/usr/tmp"]%string.

(** [sun_path_len <= _SUN_PATH_MAX] for the sockets of a directory. *)
Definition socket_path_fits (max : Z) (dir : string) : bool :=
  Z.of_nat (String.length dir) + 14 + 14 <=? max.

(** [_get_base_temp_dir(tempfile)]: its outcome and the warnings it logs. *)
Definition _get_base_temp_dir (sys_platform os_name : string)
    (tempfile : Tempfile) : Result (option string) * list TempWarning :=
  if String.eqb os_name "nt" then (Returned None, [])
  else
    let base_tempdir := gettempdir tempfile in
    match _SUN_PATH_MAX sys_platform os_name with
    | None => (Propagated (mkExn TypeError []), [])
    | Some max =>
        if socket_path_fits max base_tempdir
        then (Returned (Some base_tempdir), [])
        else
          match _get_default_tempdir tempfile dirlist with
          | None =>
              (Returned (Some base_tempdir),
               [temporary_directory_not_usable base_tempdir dirlist])
          | Some base_system_tempdir =>
              if socket_path_fits max base_system_tempdir
              then (Returned (Some base_system_tempdir),
                    [ignoring_user_defined_temporary_directory base_tempdir])
              else (Propagated (AssertionError []),
                    [ignoring_user_defined_temporary_directory base_tempdir])
          end
    end.

(** *** The temporary directory of the process *)

(** What [get_temp_dir] uses of the outside: the platform, the [tempfile]
    module, the entry ['tempdir'] in the configuration of the current
    process, and the logger, which takes the records of these functions.
    [shutil_rmtree] and [remove_temp_dir] are the function objects
    [shutil.rmtree] and [_remove_temp_dir]. *)
Record TempDirs (World : Type) := mkTempDirs {
  sys_platform : string;
  os_name : string;
  tempfile : Tempfile;
  config_tempdir : World -> option string;
  set_config_tempdir : option string -> World -> World;
  mkdtemp : option string -> World -> Result string * World;
  log_warning : TempWarning -> World -> World;
  log_created_temp_directory : string -> World -> World;
  shutil_rmtree : Obj;
  remove_temp_dir : Callback
}.
Arguments sys_platform {World}.
Arguments os_name {World}.
Arguments tempfile {World}.
Arguments config_tempdir {World}.
Arguments set_config_tempdir {World}.
Arguments mkdtemp {World}.
Arguments log_warning {World}.
Arguments log_created_temp_directory {World}.
Arguments shutil_rmtree {World}.
Arguments remove_temp_dir {World}.

Section TempDir.
Context {World : Type} {env : Environment World} (T : TempDirs World).
#[local] Abbreviation M := (M World).

(** A step on the outside world alone. *)
Definition on_world (f : World -> World) : M unit :=
  modify (fun s => set_world (f (world s)) s).

(** [process.current_process()._config], or the [AttributeError] of
    [None._config]. *)
Definition current_config : M unit :=
  s ← get;
  match current_process (world s) with
  | Some _ => ret tt
  | None => raise (mkExn AttributeError [])
  end.

(** The outcome of a pure computation, in the monad. *)
Definition of_result {A} (r : Result A) : M A :=
  match r with
  | Returned a => ret a
  | Propagated e => raise e
  end.

Definition get_temp_dir : M string :=
  current_config;;
  s ← get;
  match config_tempdir T (world s) with
  | Some tempdir => ret tempdir
  | None =>
      let '(r, warnings) :=
        _get_base_temp_dir (sys_platform T) (os_name T) (tempfile T) in
      on_world (fun w => foldl (fun w x => log_warning T x w) w warnings);;
      base_tempdir ← of_result r;
      tempdir ← (fun s =>
        let '(r, w) := mkdtemp T base_tempdir (world s) in
        (r, set_world w s, []));
      on_world (log_created_temp_directory T tempdir);;
      Finalize.__init__ None (remove_temp_dir T)
        [PyObj (shutil_rmtree T); PyStr tempdir] None (PyInt (-100));;
      current_config;;
      on_world (set_config_tempdir T (Some tempdir));;
      ret tempdir
  end.
End TempDir.

(** A concrete outside world for the temporary directory: the entry
    ['tempdir'] of the configuration, in a process that is always there. *)
Module TempDemo.
Definition TempWorld : Type := option string.

#[global] Instance temp_env : Environment TempWorld := {
  call f args kwargs w := (Returned PyNone, w);
  current_process w := Some (mkProcess "MainProcess" false);
  active_children w := ([], w);
  terminate p w := w;
  join p w := w
}.

Definition temp_dirs : TempDirs TempWorld := {|
  sys_platform := "linux";
  os_name := "posix";
  tempfile := mkTempfile "/tmp" (fun l => head l);
  config_tempdir w := w;
  set_config_tempdir v w := v;
  mkdtemp base w :=
    (Returned (String.append (default "" base) "/pymp-abcdefgh"), w);
  log_warning x w := w;
  log_created_temp_directory d w := w;
  shutil_rmtree := 40%nat;
  remove_temp_dir := 41%nat
|}.

Definition temp_initial : State TempWorld := initial 100%nat None.
End TempDemo.

(** Further concrete states and collaborators. *)
Module Scenarios.
Import Demo.

(** The module of [four_registered] after interpreter teardown: the globals
    [_finalizer_registry] and [_exiting] are [None], the [process] module
    is gone. *)
Definition torn_down : State DemoWorld :=
  mkState (_finalizer_registry four_registered) false
    (_finalizer_counter four_registered)
    (_afterfork_registry four_registered)
    (_afterfork_counter four_registered)
    None (heap four_registered) (os_getpid four_registered) None.

(** A user-defined temporary directory too long for socket paths, on a
    system whose [/tmp] is usable. *)
Definition long_tempdir : string :=
  String.concat "/" (List.repeat "a-long-directory-name"%string 5).

Definition long_tempfile : Tempfile := mkTempfile long_tempdir (fun l => head l).
End Scenarios.

(** * Properties *)

(** ** The operations of [Finalize], case by case *)

Ltac unfold_monad :=
  unfold mbind, M_bind, mret, M_ret, bind, ret, raise, emit, get, modify,
    try_except, try_except_else, sub_debug, debug, info, getpid, load, store,
    call_function, del_finalizer_registry, next_finalizer_counter in *.

Ltac unfold_monad_all := repeat (progress unfold_monad); simpl in *.

Section FinalizeFacts.
Context {World : Type} {env : Environment World}.
Implicit Types (s : State World) (self : Fid) (fin : FinalizeObj) (k : Key).

Lemma call_dangling s self :
  heap s !! self = None →
  Finalize.__call__ self s = (Propagated (mkExn AttributeError []), s, []).
Proof.
  intros Hh. unfold Finalize.__call__. unfold_monad. by rewrite Hh.
Qed.

Lemma call_no_key s self fin :
  heap s !! self = Some fin → _key fin = None →
  Finalize.__call__ self s =
    (Returned PyNone, s, [EvLog SUBDEBUG finalizer_no_longer_registered]).
Proof.
  intros Hh Hk. unfold Finalize.__call__. unfold_monad.
  by rewrite Hh, Hk.
Qed.

Lemma call_unregistered s self fin k :
  heap s !! self = Some fin → _key fin = Some k →
  _finalizer_registry s !! k = None →
  Finalize.__call__ self s =
    (Returned PyNone, s, [EvLog SUBDEBUG finalizer_no_longer_registered]).
Proof.
  intros Hh Hk Hr. unfold Finalize.__call__. unfold_monad.
  by rewrite Hh, Hk, Hr.
Qed.

Lemma call_other_process s self fin k g :
  heap s !! self = Some fin → _key fin = Some k →
  _finalizer_registry s !! k = Some g →
  _pid fin ≠ os_getpid s →
  Finalize.__call__ self s =
    (Returned PyNone, with_cleared self fin (removed k s),
     [EvLog SUBDEBUG finalizer_ignored_because_different_process]).
Proof.
  intros Hh Hk Hr Hp. unfold Finalize.__call__. unfold_monad.
  rewrite Hh, Hk, Hr. simpl.
  destruct (Nat.eqb_spec (_pid fin) (os_getpid s)) as [|_]; [done|].
  reflexivity.
Qed.

Lemma call_returns s self fin k g cb args kwargs v w :
  heap s !! self = Some fin → _key fin = Some k →
  _finalizer_registry s !! k = Some g →
  _pid fin = os_getpid s →
  _callback fin = Some cb → _args fin = Some args →
  _kwargs fin = Some kwargs →
  call cb args kwargs (world s) = (Returned v, w) →
  Finalize.__call__ self s =
    (Returned v, with_cleared self fin (set_world w (removed k s)),
     [EvLog SUBDEBUG (finalizer_calling (Some cb) (Some args) (Some kwargs));
      EvCallback self cb args kwargs]).
Proof.
  intros Hh Hk Hr Hp Hc Ha Hkw Hcall. unfold Finalize.__call__. unfold_monad.
  rewrite Hh, Hk, Hr. simpl.
  rewrite Hp, Nat.eqb_refl, Hc, Ha, Hkw. simpl. rewrite Hcall.
  reflexivity.
Qed.

Lemma call_raises s self fin k g cb args kwargs e w :
  heap s !! self = Some fin → _key fin = Some k →
  _finalizer_registry s !! k = Some g →
  _pid fin = os_getpid s →
  _callback fin = Some cb → _args fin = Some args →
  _kwargs fin = Some kwargs →
  call cb args kwargs (world s) = (Propagated e, w) →
  Finalize.__call__ self s =
    (Propagated e, set_world w (removed k s),
     [EvLog SUBDEBUG (finalizer_calling (Some cb) (Some args) (Some kwargs));
      EvCallback self cb args kwargs]).
Proof.
  intros Hh Hk Hr Hp Hc Ha Hkw Hcall. unfold Finalize.__call__. unfold_monad.
  rewrite Hh, Hk, Hr. simpl.
  rewrite Hp, Nat.eqb_refl, Hc, Ha, Hkw. simpl. rewrite Hcall.
  reflexivity.
Qed.

Lemma call_not_callable s self fin k g :
  heap s !! self = Some fin → _key fin = Some k →
  _finalizer_registry s !! k = Some g →
  _pid fin = os_getpid s →
  (_callback fin = None ∨ _args fin = None ∨ _kwargs fin = None) →
  Finalize.__call__ self s =
    (Propagated (mkExn TypeError []), removed k s,
     [EvLog SUBDEBUG (finalizer_calling (_callback fin) (_args fin) (_kwargs fin))]).
Proof.
  intros Hh Hk Hr Hp Hnone. unfold Finalize.__call__. unfold_monad.
  rewrite Hh, Hk, Hr. simpl. rewrite Hp, Nat.eqb_refl. simpl.
  destruct (_callback fin), (_args fin), (_kwargs fin); try reflexivity.
  destruct Hnone as [?|[?|?]]; discriminate.
Qed.

Lemma cancel_dangling s self :
  heap s !! self = None →
  Finalize.cancel self s = (Propagated (mkExn AttributeError []), s, []).
Proof.
  intros Hh. unfold Finalize.cancel. unfold_monad. by rewrite Hh.
Qed.

Lemma cancel_no_key s self fin :
  heap s !! self = Some fin → _key fin = None →
  Finalize.cancel self s = (Returned tt, s, []).
Proof.
  intros Hh Hk. unfold Finalize.cancel. unfold_monad. by rewrite Hh, Hk.
Qed.

Lemma cancel_unregistered s self fin k :
  heap s !! self = Some fin → _key fin = Some k →
  _finalizer_registry s !! k = None →
  Finalize.cancel self s = (Returned tt, s, []).
Proof.
  intros Hh Hk Hr. unfold Finalize.cancel. unfold_monad.
  by rewrite Hh, Hk, Hr.
Qed.

Lemma cancel_registered s self fin k g :
  heap s !! self = Some fin → _key fin = Some k →
  _finalizer_registry s !! k = Some g →
  Finalize.cancel self s =
    (Returned tt, with_cleared self fin (removed k s), []).
Proof.
  intros Hh Hk Hr. unfold Finalize.cancel. unfold_monad.
  by rewrite Hh, Hk, Hr.
Qed.
End FinalizeFacts.

(** ** What every operation preserves *)

Section Invariant.
Context {World : Type} {env : Environment World}.
Implicit Types (s : State World) (self f : Fid) (fin : FinalizeObj) (k : Key).
Implicit Types (t : list Event).

Lemma callbacks_called_app t1 t2 :
  callbacks_called (t1 ++ t2) = callbacks_called t1 ++ callbacks_called t2.
Proof. apply omap_app. Qed.

Lemma step_ok_refl s : wf s → step_ok s s [].
Proof.
  intros Hwf. split; [done|constructor| |done].
  intros f Hf. by apply elem_of_nil in Hf.
Qed.

Lemma step_ok_trans s s1 s2 t1 t2 :
  step_ok s s1 t1 → step_ok s1 s2 t2 → step_ok s s2 (t1 ++ t2).
Proof.
  intros [_ Hnd1 Hc1 Hf1] [Hwf2 Hnd2 Hc2 Hf2]. split; [done| | |].
  - rewrite callbacks_called_app. apply NoDup_app. split_and!; [done| |done].
    intros f Hin1 Hin2. destruct (Hc1 f Hin1) as [_ Hu].
    destruct (Hc2 f Hin2) as [Hnu _]. by apply Hnu.
  - intros f. rewrite callbacks_called_app, elem_of_app.
    intros [Hin|Hin].
    + destruct (Hc1 f Hin) as [Hnu Hu]. split; [done|by apply Hf2].
    + destruct (Hc2 f Hin) as [Hnu Hu]. split; [|done].
      intros Hu0. by apply Hnu, Hf1.
  - intros f Hu. by apply Hf2, Hf1.
Qed.

(** A step that touches neither the registry nor the heap nor the counters. *)
Lemma step_ok_outside s s' t :
  wf s →
  _finalizer_registry s' = _finalizer_registry s → heap s' = heap s →
  _finalizer_counter s' = _finalizer_counter s →
  _afterfork_registry s' = _afterfork_registry s →
  _afterfork_counter s' = _afterfork_counter s →
  callbacks_called t = [] →
  step_ok s s' t.
Proof.
  intros [H1 H2 H3 H4] Hr Hh Hc Har Hac Ht. split.
  - split; rewrite ?Hr, ?Hh, ?Hc, ?Har, ?Hac; done.
  - rewrite Ht. constructor.
  - rewrite Ht. intros f Hf. by apply elem_of_nil in Hf.
  - intros f (fin & Hfin & Hk). exists fin. rewrite Hh, Hr. done.
Qed.

Lemma good_ret {A} (a : A) : good (mret a : M World A).
Proof.
  intros s r s' t Hwf Heq. unfold_monad. simplify_eq. by apply step_ok_refl.
Qed.

Lemma good_raise {A} e : good (raise e : M World A).
Proof.
  intros s r s' t Hwf Heq. unfold_monad. simplify_eq. by apply step_ok_refl.
Qed.

Lemma good_get : good (get : M World _).
Proof.
  intros s r s' t Hwf Heq. unfold_monad. simplify_eq. by apply step_ok_refl.
Qed.

Lemma good_bind {A B} (m : M World A) (k : A → M World B) :
  good m → (∀ a, good (k a)) → good (m ≫= k).
Proof.
  intros Hm Hk s r s' t Hwf Heq. unfold mbind, M_bind, bind in Heq.
  destruct (m s) as [[[a|e] s1] t1] eqn:Em.
  - destruct (k a s1) as [[r2 s2] t2] eqn:Ek. simplify_eq.
    pose proof (Hm _ _ _ _ Hwf Em) as H1.
    eapply step_ok_trans; [done|]. eapply Hk; [apply H1|done].
  - simplify_eq. by eapply Hm.
Qed.

Lemma good_try_except_else {A B} (body : M World A) caught
    (handler : Exn → M World B) (orelse : A → M World B) :
  good body → (∀ e, good (handler e)) → (∀ a, good (orelse a)) →
  good (try_except_else body caught handler orelse).
Proof.
  intros Hb Hh Ho s r s' t Hwf Heq. unfold try_except_else in Heq.
  destruct (body s) as [[[a|e] s1] t1] eqn:Em.
  - destruct (orelse a s1) as [[r2 s2] t2] eqn:Ek. simplify_eq.
    pose proof (Hb _ _ _ _ Hwf Em) as H1.
    eapply step_ok_trans; [done|]. eapply Ho; [apply H1|done].
  - destruct (caught e).
    + destruct (handler e s1) as [[r2 s2] t2] eqn:Ek. simplify_eq.
      pose proof (Hb _ _ _ _ Hwf Em) as H1.
      eapply step_ok_trans; [done|]. eapply Hh; [apply H1|done].
    + simplify_eq. by eapply Hb.
Qed.

Lemma good_try_except {A} (body : M World A) caught handler :
  good body → (∀ e, good (handler e)) →
  good (try_except body caught handler).
Proof.
  intros Hb Hh. apply good_try_except_else; [done..|].
  intros a. apply (good_ret a).
Qed.

Lemma good_for_each {A} (l : list A) (body : A → M World unit) :
  (∀ x, good (body x)) → good (for_each l body).
Proof.
  intros Hb. induction l as [|x l IH]; simpl.
  - apply (good_ret tt).
  - apply (good_bind (body x)); [apply Hb|]. intros _. apply IH.
Qed.

(** Events other than a callback leave no mark. *)
Lemma good_emit ev :
  callbacks_called [ev] = [] → good (emit ev : M World unit).
Proof.
  intros Hev s r s' t Hwf Heq. unfold emit in Heq. simplify_eq.
  by apply step_ok_outside.
Qed.

Lemma good_modify_outside (g : State World → State World) :
  (∀ s, _finalizer_registry (g s) = _finalizer_registry s ∧
        heap (g s) = heap s ∧
        _finalizer_counter (g s) = _finalizer_counter s ∧
        _afterfork_registry (g s) = _afterfork_registry s ∧
        _afterfork_counter (g s) = _afterfork_counter s) →
  good (modify g).
Proof.
  intros Hg s r s' t Hwf Heq. unfold modify in Heq. simplify_eq.
  destruct (Hg s) as (?&?&?&?&?). by apply step_ok_outside.
Qed.
End Invariant.

Section FinalizePreserves.
Context {World : Type} {env : Environment World}.
Implicit Types (s : State World) (self f : Fid) (fin : FinalizeObj) (k : Key).

Lemma wf_removed s k : wf s → wf (removed k s).
Proof.
  intros [H1 H2 H3 H4]. split; simpl; [|done..].
  intros k' g Hk'. apply lookup_delete_Some in Hk' as [_ Hk']. eauto.
Qed.

Lemma wf_set_world s w : wf s → wf (set_world w s).
Proof. intros [H1 H2 H3 H4]. by split. Qed.

Lemma wf_with_cleared s self fin :
  wf s → heap s !! self = Some fin →
  (∀ k, _key fin = Some k → _finalizer_registry s !! k = None) →
  wf (with_cleared self fin s).
Proof.
  intros [H1 H2 H3 H4] Hself Hunreg. split; simpl; [| | |done].
  - intros k g Hk. destruct (H1 k g Hk) as (gin & Hg & Hgk & Hrest).
    destruct (decide (g = self)) as [->|Hne].
    + simplify_eq. specialize (Hunreg k Hgk). congruence.
    + exists gin. by rewrite list_lookup_insert_ne.
  - intros g gin p n Hg Hgk.
    destruct (decide (g = self)) as [->|Hne].
    + apply list_lookup_insert_Some in Hg as [(_ & <- & _)|[? _]]; done.
    + rewrite list_lookup_insert_ne in Hg by done. eauto.
  - intros g g' gin gin' k Hg Hg' Hk Hk'.
    destruct (decide (g = self)) as [->|Hne].
    { apply list_lookup_insert_Some in Hg as [(_ & <- & _)|[? _]]; done. }
    destruct (decide (g' = self)) as [->|Hne'].
    { apply list_lookup_insert_Some in Hg' as [(_ & <- & _)|[? _]]; done. }
    rewrite list_lookup_insert_ne in Hg, Hg' by done. eauto.
Qed.

Lemma unregistered_removed s k f : unregistered f s → unregistered f (removed k s).
Proof.
  intros (fin & Hf & Hk). exists fin. split; [done|]. simpl.
  intros k' Hk'. apply lookup_delete_None. right. by apply Hk.
Qed.

Lemma unregistered_set_world s w f :
  unregistered f s ↔ unregistered f (set_world w s).
Proof. done. Qed.

Lemma unregistered_with_cleared s self fin f :
  unregistered f s → unregistered f (with_cleared self fin s).
Proof.
  intros (gin & Hf & Hk). destruct (decide (f = self)) as [->|Hne].
  - exists (cleared fin). simpl. split; [|done].
    apply list_lookup_insert_eq. by eapply lookup_lt_Some.
  - exists gin. simpl. by rewrite list_lookup_insert_ne.
Qed.

Lemma unregistered_cleared_self s self fin fin0 :
  heap s !! self = Some fin0 → unregistered self (with_cleared self fin s).
Proof.
  intros Hs. exists (cleared fin). simpl. split; [|done].
  apply list_lookup_insert_eq. by eapply lookup_lt_Some.
Qed.

(** The effect of deleting the key of [self] and then clearing it. *)
Lemma step_ok_remove_and_clear s self fin k g w t :
  wf s → heap s !! self = Some fin → _key fin = Some k →
  _finalizer_registry s !! k = Some g →
  (callbacks_called t = [] ∨ callbacks_called t = [self]) →
  step_ok s (with_cleared self fin (set_world w (removed k s))) t.
Proof.
  intros Hwf Hself Hk Hreg Ht.
  assert (¬ unregistered self s) as Hnu.
  { intros (fin' & Hf' & Hk'). simplify_eq. specialize (Hk' k Hk). congruence. }
  split.
  - apply wf_with_cleared; [by apply wf_set_world, wf_removed|done|].
    simpl. intros k' Hk'. simplify_eq. apply lookup_delete_eq.
  - destruct Ht as [->| ->]; [constructor|apply NoDup_singleton].
  - intros f Hf. destruct Ht as [Ht|Ht]; rewrite Ht in Hf.
    + by apply elem_of_nil in Hf.
    + apply list_elem_of_singleton in Hf as ->. split; [done|].
      by eapply unregistered_cleared_self.
  - intros f Hu. by apply unregistered_with_cleared, unregistered_removed.
Qed.

(** The same when the callback raised and nothing was cleared. *)
Lemma step_ok_remove_only s self fin k g w t :
  wf s → heap s !! self = Some fin → _key fin = Some k →
  _finalizer_registry s !! k = Some g →
  (callbacks_called t = [] ∨ callbacks_called t = [self]) →
  step_ok s (set_world w (removed k s)) t.
Proof.
  intros Hwf Hself Hk Hreg Ht.
  assert (¬ unregistered self s) as Hnu.
  { intros (fin' & Hf' & Hk'). simplify_eq. specialize (Hk' k Hk). congruence. }
  split.
  - by apply wf_set_world, wf_removed.
  - destruct Ht as [->| ->]; [constructor|apply NoDup_singleton].
  - intros f Hf. destruct Ht as [Ht|Ht]; rewrite Ht in Hf.
    + by apply elem_of_nil in Hf.
    + apply list_elem_of_singleton in Hf as ->. split; [done|].
      exists fin. split; [done|]. simpl. intros k' Hk'. simplify_eq.
      apply lookup_delete_eq.
  - intros f Hu. by apply unregistered_removed.
Qed.

Lemma good_call self : good (Finalize.__call__ (World:=World) self).
Proof.
  intros s r s' t Hwf Heq.
  destruct (heap s !! self) as [fin|] eqn:Hself.
  2:{ rewrite (call_dangling s self Hself) in Heq. simplify_eq.
      by apply step_ok_refl. }
  destruct (_key fin) as [k|] eqn:Hk.
  2:{ rewrite (call_no_key s self fin Hself Hk) in Heq. simplify_eq.
      by apply step_ok_outside. }
  destruct (_finalizer_registry s !! k) as [g|] eqn:Hreg.
  2:{ rewrite (call_unregistered s self fin k Hself Hk Hreg) in Heq.
      simplify_eq. by apply step_ok_outside. }
  destruct (decide (_pid fin = os_getpid s)) as [Hp|Hp].
  2:{ rewrite (call_other_process s self fin k g Hself Hk Hreg Hp) in Heq.
      simplify_eq.
      replace (removed k s) with (set_world (world s) (removed k s)) by done.
      eapply step_ok_remove_and_clear; eauto. }
  destruct (_callback fin) as [cb|] eqn:Hcb; cycle 1.
  { rewrite (call_not_callable s self fin k g) in Heq by eauto.
    simplify_eq.
    replace (removed k s) with (set_world (world s) (removed k s)) by done.
    eapply step_ok_remove_only; eauto. }
  destruct (_args fin) as [args|] eqn:Hargs; cycle 1.
  { rewrite (call_not_callable s self fin k g) in Heq by eauto.
    simplify_eq.
    replace (removed k s) with (set_world (world s) (removed k s)) by done.
    eapply step_ok_remove_only; eauto. }
  destruct (_kwargs fin) as [kwargs|] eqn:Hkwargs; cycle 1.
  { rewrite (call_not_callable s self fin k g) in Heq by eauto.
    simplify_eq.
    replace (removed k s) with (set_world (world s) (removed k s)) by done.
    eapply step_ok_remove_only; eauto. }
  destruct (call cb args kwargs (world s)) as [[v|e] w] eqn:Hcall.
  - rewrite (call_returns s self fin k g cb args kwargs v w) in Heq by done.
    simplify_eq. eapply step_ok_remove_and_clear; eauto.
  - rewrite (call_raises s self fin k g cb args kwargs e w) in Heq by done.
    simplify_eq. eapply step_ok_remove_only; eauto.
Qed.

Lemma good_cancel self : good (Finalize.cancel (World:=World) self).
Proof.
  intros s r s' t Hwf Heq.
  destruct (heap s !! self) as [fin|] eqn:Hself.
  2:{ rewrite (cancel_dangling s self Hself) in Heq. simplify_eq.
      by apply step_ok_refl. }
  destruct (_key fin) as [k|] eqn:Hk.
  2:{ rewrite (cancel_no_key s self fin Hself Hk) in Heq. simplify_eq.
      by apply step_ok_refl. }
  destruct (_finalizer_registry s !! k) as [g|] eqn:Hreg.
  2:{ rewrite (cancel_unregistered s self fin k Hself Hk Hreg) in Heq.
      simplify_eq. by apply step_ok_refl. }
  rewrite (cancel_registered s self fin k g Hself Hk Hreg) in Heq.
  simplify_eq.
  replace (removed k s) with (set_world (world s) (removed k s)) by done.
  eapply step_ok_remove_and_clear; eauto.
Qed.
End FinalizePreserves.

Section Registration.
Context {World : Type} {env : Environment World}.
Implicit Types (s : State World) (self f : Fid) (fin : FinalizeObj) (k : Key).

Lemma init_type_error s obj cb args kwargs exitpriority :
  exitpriority ≠ PyNone → isinstance_int exitpriority = false →
  Finalize.__init__ obj cb args kwargs exitpriority s =
    (Propagated (mkExn TypeError [exitpriority]), s, []).
Proof.
  intros Hn Hi. unfold Finalize.__init__. rewrite Hi.
  by destruct exitpriority.
Qed.

Lemma init_value_error s cb args kwargs :
  Finalize.__init__ None cb args kwargs PyNone s =
    (Propagated (mkExn ValueError
       [PyStr "Without object, exitpriority cannot be None"]), s, []).
Proof. reflexivity. Qed.

Lemma init_succeeds s obj cb args kwargs exitpriority :
  obj ≠ None ∨ exitpriority ≠ PyNone →
  exitpriority = PyNone ∨ isinstance_int exitpriority = true →
  Finalize.__init__ obj cb args kwargs exitpriority s =
    (Returned (length (heap s)),
     registered obj cb args kwargs exitpriority s, []).
Proof.
  intros Hsome Hty. unfold Finalize.__init__, registered.
  destruct exitpriority; try (destruct Hty; done); simpl.
  - destruct obj as [o|]; [reflexivity|]. destruct Hsome; done.
  - destruct obj as [o|]; reflexivity.
Qed.

Lemma wf_registered_state s obj cb args kwargs exitpriority :
  wf s → wf (registered obj cb args kwargs exitpriority s).
Proof.
  intros [H1 H2 H3 H4]. unfold registered.
  set (key := (priority_of exitpriority, _finalizer_counter s)).
  set (new := mkFinalize _ _ _ _ _ _).
  assert (∀ g gin, heap s !! g = Some gin → _key gin ≠ Some key) as Hfresh.
  { intros g gin Hg Hk. specialize (H2 g gin _ _ Hg Hk). lia. }
  split; simpl; [| | |done].
  - intros k g Hk. apply lookup_insert_Some in Hk as [[<- <-]|[Hne Hk]].
    + exists new. split; [|by eauto].
      rewrite lookup_app_r by done. by rewrite Nat.sub_diag.
    + destruct (H1 k g Hk) as (gin & Hg & Hrest). exists gin.
      split; [|done]. by apply lookup_app_l_Some.
  - intros g gin p n Hg Hk. apply lookup_app_Some in Hg as [Hg|[_ Hg]].
    + specialize (H2 g gin p n Hg Hk). lia.
    + apply list_lookup_singleton_Some in Hg as [_ <-].
      simpl in Hk. unfold key in Hk. simplify_eq. lia.
  - intros g g' gin gin' k Hg Hg' Hk Hk'.
    apply lookup_app_Some in Hg as [Hg|[Hlen Hg]];
      apply lookup_app_Some in Hg' as [Hg'|[Hlen' Hg']].
    + eauto.
    + apply list_lookup_singleton_Some in Hg' as [_ <-]. simpl in Hk'.
      simplify_eq. by destruct (Hfresh g gin Hg).
    + apply list_lookup_singleton_Some in Hg as [_ <-]. simpl in Hk.
      simplify_eq. by destruct (Hfresh g' gin' Hg').
    + apply list_lookup_singleton_Some in Hg as [Hg _].
      apply list_lookup_singleton_Some in Hg' as [Hg' _]. lia.
Qed.

Lemma unregistered_registered_state s obj cb args kwargs exitpriority f :
  wf s → unregistered f s →
  unregistered f (registered obj cb args kwargs exitpriority s).
Proof.
  intros Hwf (fin & Hf & Hk). exists fin. unfold registered. simpl.
  split; [by apply lookup_app_l_Some|].
  intros [p n] Hkey. rewrite lookup_insert_ne; [by apply Hk|].
  intros Heq. pose proof (wf_counter s Hwf f fin p n Hf Hkey).
  simplify_eq. lia.
Qed.

Lemma good_init obj cb args kwargs exitpriority :
  good (Finalize.__init__ (World:=World) obj cb args kwargs exitpriority).
Proof.
  intros s r s' t Hwf Heq.
  destruct (decide (exitpriority = PyNone)) as [->|Hp].
  - destruct obj as [o|].
    + rewrite init_succeeds in Heq by auto. simplify_eq. split.
      * by apply wf_registered_state.
      * constructor.
      * intros f Hf. by apply elem_of_nil in Hf.
      * intros f. by apply unregistered_registered_state.
    + rewrite init_value_error in Heq. simplify_eq. by apply step_ok_refl.
  - destruct (isinstance_int exitpriority) eqn:Hi.
    + rewrite init_succeeds in Heq by auto. simplify_eq. split.
      * by apply wf_registered_state.
      * constructor.
      * intros f Hf. by apply elem_of_nil in Hf.
      * intros f. by apply unregistered_registered_state.
    + rewrite init_type_error in Heq by done. simplify_eq.
      by apply step_ok_refl.
Qed.
End Registration.

Section RunnersPreserve.
Context {World : Type} {env : Environment World}.
Implicit Types (s : State World) (self f : Fid) (fin : FinalizeObj) (k : Key).

Lemma good_log level m : good (emit (EvLog level m) : M World unit).
Proof. by apply good_emit. Qed.

Lemma good_call_function cb args kwargs :
  good (call_function (World:=World) cb args kwargs).
Proof.
  intros s r s' t Hwf Heq. unfold call_function in Heq.
  destruct (call cb args kwargs (world s)) as [r' w]. simplify_eq.
  by apply step_ok_outside.
Qed.

Lemma good_run_finalizer k : good (run_finalizer (World:=World) k).
Proof.
  unfold run_finalizer. apply good_bind; [apply good_get|]. intros s.
  destruct (_finalizer_registry s !! k) as [finalizer|]; [|apply (good_ret tt)].
  apply good_bind; [apply good_log|]. intros _.
  apply good_try_except.
  - apply good_bind; [apply good_call|]. intros _. apply (good_ret tt).
  - intros e. by apply good_emit.
Qed.

Lemma good_clear : good (modify (set_finalizer_registry (World:=World) ∅)).
Proof.
  intros s r s' t Hwf Heq. unfold modify in Heq. simplify_eq.
  destruct Hwf as [H1 H2 H3 H4]. split.
  - split; simpl; [|done..]. intros k g Hk. by rewrite lookup_empty in Hk.
  - constructor.
  - intros f Hf. by apply elem_of_nil in Hf.
  - intros f (fin & Hf & _). exists fin. split; [done|]. simpl.
    intros k _. apply lookup_empty.
Qed.

Lemma good_run_finalizers minpriority :
  good (_run_finalizers (World:=World) minpriority).
Proof.
  unfold _run_finalizers. apply good_bind; [apply good_get|]. intros s.
  destruct (negb (finalizer_registry_bound s)); [apply (good_ret tt)|].
  apply good_bind; [apply good_for_each, good_run_finalizer|]. intros _.
  destruct minpriority; [apply (good_ret tt)|apply good_clear].
Qed.

Lemma good_register_after_fork obj func :
  good (register_after_fork (World:=World) obj func).
Proof.
  intros s r s' t Hwf Heq. unfold register_after_fork, modify in Heq.
  simplify_eq. destruct Hwf as [H1 H2 H3 H4]. split.
  - split; simpl; [done..|]. intros i o f v Hin.
    apply lookup_insert_Some in Hin as [[? _]|[_ Hin]].
    + simplify_eq. lia.
    + specialize (H4 _ _ _ _ Hin). lia.
  - constructor.
  - intros f Hf. by apply elem_of_nil in Hf.
  - done.
Qed.

Lemma good_run_after_forker item : good (run_after_forker (World:=World) item).
Proof.
  destruct item as [[[index ident] func] obj]. simpl.
  apply good_try_except.
  - apply good_bind; [by apply good_emit|]. intros _.
    apply good_bind; [apply good_call_function|]. intros _.
    apply (good_ret tt).
  - intros e. apply good_log.
Qed.

Lemma good_run_after_forkers : good (_run_after_forkers (World:=World)).
Proof.
  unfold _run_after_forkers. apply good_bind; [apply good_get|]. intros s.
  apply good_for_each, good_run_after_forker.
Qed.

Lemma good_terminate_daemon p : good (terminate_daemon (World:=World) p).
Proof.
  unfold terminate_daemon. destruct (daemon p); [|apply (good_ret tt)].
  apply good_bind; [apply good_log|]. intros _.
  apply good_bind; [by apply good_emit|]. intros _.
  by apply good_modify_outside.
Qed.

Lemma good_join_child p : good (join_child (World:=World) p).
Proof.
  unfold join_child.
  apply good_bind; [apply good_log|]. intros _.
  apply good_bind; [by apply good_emit|]. intros _.
  by apply good_modify_outside.
Qed.

Lemma good_get_active_children : good (get_active_children (World:=World)).
Proof.
  intros s r s' t Hwf Heq. unfold get_active_children in Heq.
  destruct (active_children (world s)) as [ps w]. simplify_eq.
  by apply step_ok_outside.
Qed.

Lemma good_shutdown_children : good (shutdown_children (World:=World)).
Proof.
  unfold shutdown_children. apply good_bind; [apply good_get|]. intros s.
  destruct (current_process (world s)); [|apply (good_ret tt)].
  apply good_bind; [apply good_get_active_children|]. intros ps.
  apply good_bind; [apply good_for_each, good_terminate_daemon|]. intros _.
  apply good_bind; [apply good_get_active_children|]. intros ps'.
  apply good_for_each, good_join_child.
Qed.

Lemma good_exit_function : good (_exit_function (World:=World)).
Proof.
  unfold _exit_function. apply good_bind; [apply good_get|]. intros s.
  destruct (not_exiting s); [|apply (good_ret tt)].
  apply good_bind; [by apply good_modify_outside|]. intros _.
  apply good_bind; [apply good_log|]. intros _.
  apply good_bind; [apply good_log|]. intros _.
  apply good_bind; [apply good_run_finalizers|]. intros _.
  apply good_bind; [apply good_shutdown_children|]. intros _.
  apply good_bind; [apply good_log|]. intros _.
  apply good_run_finalizers.
Qed.

Lemma run_op_ok o s s' t : wf s → run_op o s = (s', t) → step_ok s s' t.
Proof.
  intros Hwf Heq. destruct o; simpl in Heq; unfold attempt in Heq.
  - destruct (Finalize.__init__ _ _ _ _ _ s) as [[r s1] t1] eqn:E.
    simplify_eq. by eapply good_init.
  - destruct (Finalize.__call__ _ s) as [[r s1] t1] eqn:E.
    simplify_eq. by eapply good_call.
  - destruct (Finalize.cancel _ s) as [[r s1] t1] eqn:E.
    simplify_eq. by eapply good_cancel.
  - destruct (_run_finalizers _ s) as [[r s1] t1] eqn:E.
    simplify_eq. by eapply good_run_finalizers.
  - destruct (register_after_fork _ _ s) as [[r s1] t1] eqn:E.
    simplify_eq. by eapply good_register_after_fork.
  - destruct (_run_after_forkers s) as [[r s1] t1] eqn:E.
    simplify_eq. by eapply good_run_after_forkers.
  - destruct (_exit_function s) as [[r s1] t1] eqn:E.
    simplify_eq. by eapply good_exit_function.
Qed.

Lemma run_ops_ok ops s s' t : wf s → run_ops ops s = (s', t) → step_ok s s' t.
Proof.
  revert s s' t. induction ops as [|o ops IH]; intros s s' t Hwf Heq.
  - simpl in Heq. simplify_eq. by apply step_ok_refl.
  - simpl in Heq. destruct (run_op o s) as [s1 t1] eqn:E1.
    destruct (run_ops ops s1) as [s2 t2] eqn:E2. simplify_eq.
    pose proof (run_op_ok _ _ _ _ Hwf E1) as H1.
    eapply step_ok_trans; [done|]. eapply IH; [apply H1|done].
Qed.

Lemma wf_initial p (w : World) : wf (initial p w).
Proof. split; simpl; intros *; by rewrite ?lookup_empty, ?lookup_nil. Qed.
End RunnersPreserve.

(** ** At most one call of each callback *)

Section AtMostOnce.
Context {World : Type} {env : Environment World}.
Implicit Types (s : State World) (self f : Fid) (fin : FinalizeObj) (k : Key).

Lemma unregistered_still_active s self :
  unregistered self s ↔
  is_Some (heap s !! self) ∧ Finalize.still_active self s = false.
Proof.
  unfold unregistered, Finalize.still_active. split.
  - intros (fin & Hf & Hk). rewrite Hf. split; [by eexists|].
    destruct (_key fin) as [k|]; [|done].
    rewrite (Hk k eq_refl). apply bool_decide_eq_false. by intros [? ?].
  - intros [[fin Hf] Hact]. rewrite Hf in Hact. exists fin. split; [done|].
    intros k Hk. rewrite Hk in Hact.
    apply bool_decide_eq_false in Hact.
    destruct (_finalizer_registry s !! k) eqn:E; [|done].
    destruct Hact. by eexists.
Qed.

Lemma still_active_cleared s self fin :
  Finalize.still_active self (with_cleared self fin s) = false.
Proof.
  unfold Finalize.still_active, with_cleared. simpl.
  destruct (decide (self < length (heap s))%nat) as [Hlt|Hge].
  - by rewrite list_lookup_insert_eq.
  - rewrite list_insert_ge by lia.
    rewrite lookup_ge_None_2 by lia. done.
Qed.

Lemma still_active_removed s self fin k w :
  heap s !! self = Some fin → _key fin = Some k →
  Finalize.still_active self (set_world w (removed k s)) = false.
Proof.
  intros Hf Hk. unfold Finalize.still_active. simpl. rewrite Hf, Hk.
  rewrite lookup_delete_eq. apply bool_decide_eq_false. by intros [? ?].
Qed.

Lemma not_still_active_dangling s self :
  heap s !! self = None → Finalize.still_active self s = false.
Proof. intros Hf. unfold Finalize.still_active. by rewrite Hf. Qed.

Lemma not_still_active_no_key s self fin :
  heap s !! self = Some fin → _key fin = None →
  Finalize.still_active self s = false.
Proof. intros Hf Hk. unfold Finalize.still_active. by rewrite Hf, Hk. Qed.

Lemma not_still_active_unregistered s self fin k :
  heap s !! self = Some fin → _key fin = Some k →
  _finalizer_registry s !! k = None →
  Finalize.still_active self s = false.
Proof.
  intros Hf Hk Hr. unfold Finalize.still_active. rewrite Hf, Hk, Hr.
  apply bool_decide_eq_false. by intros [? ?].
Qed.

(** After [self()] the instance is no longer registered. *)
Lemma call_deactivates s self :
  Finalize.still_active self (attempt (Finalize.__call__ self) s).1 = false.
Proof.
  unfold attempt.
  destruct (heap s !! self) as [fin|] eqn:Hself.
  2:{ rewrite (call_dangling s self Hself). simpl.
      by apply not_still_active_dangling. }
  destruct (_key fin) as [k|] eqn:Hk.
  2:{ rewrite (call_no_key s self fin Hself Hk). simpl.
      by eapply not_still_active_no_key. }
  destruct (_finalizer_registry s !! k) as [g|] eqn:Hreg.
  2:{ rewrite (call_unregistered s self fin k Hself Hk Hreg). simpl.
      by eapply not_still_active_unregistered. }
  destruct (decide (_pid fin = os_getpid s)) as [Hp|Hp].
  2:{ rewrite (call_other_process s self fin k g Hself Hk Hreg Hp). simpl.
      apply still_active_cleared. }
  destruct (_callback fin) as [cb|] eqn:Hcb; cycle 1.
  { rewrite (call_not_callable s self fin k g) by eauto. simpl.
    by apply (still_active_removed s self fin k (world s)). }
  destruct (_args fin) as [args|] eqn:Hargs; cycle 1.
  { rewrite (call_not_callable s self fin k g) by eauto. simpl.
    by apply (still_active_removed s self fin k (world s)). }
  destruct (_kwargs fin) as [kwargs|] eqn:Hkwargs; cycle 1.
  { rewrite (call_not_callable s self fin k g) by eauto. simpl.
    by apply (still_active_removed s self fin k (world s)). }
  destruct (call cb args kwargs (world s)) as [[v|e] w] eqn:Hcall.
  - rewrite (call_returns s self fin k g cb args kwargs v w) by done.
    simpl. apply still_active_cleared.
  - rewrite (call_raises s self fin k g cb args kwargs e w) by done.
    simpl. by apply (still_active_removed s self fin k w).
Qed.

(** After [self.cancel()] the instance is no longer registered. *)
Lemma cancel_deactivates s self :
  Finalize.still_active self (attempt (Finalize.cancel self) s).1 = false.
Proof.
  unfold attempt.
  destruct (heap s !! self) as [fin|] eqn:Hself.
  2:{ rewrite (cancel_dangling s self Hself). simpl.
      by apply not_still_active_dangling. }
  destruct (_key fin) as [k|] eqn:Hk.
  2:{ rewrite (cancel_no_key s self fin Hself Hk). simpl.
      by eapply not_still_active_no_key. }
  destruct (_finalizer_registry s !! k) as [g|] eqn:Hreg.
  2:{ rewrite (cancel_unregistered s self fin k Hself Hk Hreg). simpl.
      by eapply not_still_active_unregistered. }
  rewrite (cancel_registered s self fin k g Hself Hk Hreg). simpl.
  apply still_active_cleared.
Qed.

Lemma call_of_unregistered s self :
  unregistered self s →
  Finalize.__call__ self s =
    (Returned PyNone, s, [EvLog SUBDEBUG finalizer_no_longer_registered]).
Proof.
  intros (fin & Hf & Hk). destruct (_key fin) as [k|] eqn:Ek.
  - eapply call_unregistered; eauto.
  - by eapply call_no_key.
Qed.

Lemma cancel_of_unregistered s self :
  unregistered self s → Finalize.cancel self s = (Returned tt, s, []).
Proof.
  intros (fin & Hf & Hk). destruct (_key fin) as [k|] eqn:Ek.
  - eapply cancel_unregistered; eauto.
  - by eapply cancel_no_key.
Qed.

End AtMostOnce.

(** ** A single invocation *)

Section Invocation.
Context {World : Type} {env : Environment World}.
Implicit Types (s : State World) (self f : Fid) (fin : FinalizeObj) (k : Key).

(** C4.  When the process id recorded in an instance differs from the
    current one, invoking the instance returns [None], calls no callback
    and leaves the outside world alone; the key of the instance is out of
    the registry afterwards, and nothing else has left it. *)
Theorem call_in_other_process s self fin :
  heap s !! self = Some fin → _pid fin ≠ os_getpid s →
  ∃ s' t,
    Finalize.__call__ self s = (Returned PyNone, s', t) ∧
    callbacks_called t = [] ∧
    world s' = world s ∧
    Finalize.still_active self s' = false ∧
    (∀ k, _key fin = Some k →
       _finalizer_registry s' = delete k (_finalizer_registry s)) ∧
    (_key fin = None → _finalizer_registry s' = _finalizer_registry s).
Proof.
  intros Hself Hp.
  destruct (_key fin) as [k|] eqn:Hk.
  2:{ eexists _, _. split; [by eapply call_no_key|].
      split_and!; try done. by eapply not_still_active_no_key. }
  destruct (_finalizer_registry s !! k) as [g|] eqn:Hreg.
  2:{ eexists _, _. split; [by eapply call_unregistered|].
      split_and!; try done.
      - by eapply not_still_active_unregistered.
      - intros k' ?. simplify_eq. symmetry. by apply delete_id. }
  eexists _, _. split; [by eapply call_other_process|].
  split_and!; try done.
  - apply still_active_cleared.
  - intros k' ?. by simplify_eq.
Qed.

(** C6, as the code has it.  For an instance that is registered and owned
    by the current process: when the callback returns, [_weakref],
    [_callback], [_args], [_kwargs] and [_key] are [None] afterwards and
    the value is handed back; when the callback raises, the exception
    reaches the invoker as it was raised, the key has left the registry,
    and the attributes keep their values. *)
Theorem call_clears_on_return s self fin k g cb args kwargs :
  heap s !! self = Some fin → _key fin = Some k →
  _finalizer_registry s !! k = Some g →
  _pid fin = os_getpid s →
  _callback fin = Some cb → _args fin = Some args →
  _kwargs fin = Some kwargs →
  ∃ s' t, 
    callbacks_called t = [self] ∧
    _finalizer_registry s' !! k = None ∧
    match call cb args kwargs (world s) with
    | (Returned v, w) =>
        Finalize.__call__ self s = (Returned v, s', t) ∧
        ∃ fin', heap s' !! self = Some fin' ∧
          _weakref fin' = None ∧ _callback fin' = None ∧ _args fin' = None ∧
          _kwargs fin' = None ∧ _key fin' = None
    | (Propagated e, w) =>
        Finalize.__call__ self s = (Propagated e, s', t) ∧
        heap s' !! self = Some fin
    end.
Proof.
  intros Hself Hk Hreg Hp Hcb Hargs Hkwargs.
  destruct (call cb args kwargs (world s)) as [[v|e] w] eqn:Hcall.
  - eexists _, _. split_and!; [| |by eapply call_returns|].
    + done.
    + simpl. apply lookup_delete_eq.
    + exists (cleared fin). split; [|done]. simpl.
      apply list_lookup_insert_eq. by eapply lookup_lt_Some.
  - eexists _, _. split_and!; [| |by eapply call_raises|].
    + done.
    + simpl. apply lookup_delete_eq.
    + done.
Qed.
End Invocation.

(** ** Registration *)

Section RegistrationClaims.
Context {World : Type} {env : Environment World}.
Implicit Types (s : State World) (self f : Fid) (fin : FinalizeObj) (k : Key).

Lemma counter_is_fresh s p :
  wf s →
  _finalizer_registry s !! (p, _finalizer_counter s) = None ∧
  ∀ f fin, heap s !! f = Some fin → _key fin ≠ Some (p, _finalizer_counter s).
Proof.
  intros Hwf.
  assert (∀ f fin, heap s !! f = Some fin →
            _key fin ≠ Some (p, _finalizer_counter s)) as Hfresh.
  { intros f fin Hf Hk. pose proof (wf_counter s Hwf f fin _ _ Hf Hk). lia. }
  split; [|done].
  destruct (_finalizer_registry s !! _) as [g|] eqn:E; [|done].
  destruct (wf_registered s Hwf _ _ E) as (fin & Hf & Hk & _).
  by destruct (Hfresh g fin Hf).
Qed.


(** C10.  A priority that is neither [None] nor an [int] makes the
    construction raise a [TypeError] carrying that value; nothing has
    happened by then: the registry, the counter and the heap (so also
    every weak reference held by an instance) are as before, and no event
    was emitted. *)
Theorem non_int_priority_is_rejected s obj cb args kwargs exitpriority :
  exitpriority ≠ PyNone → isinstance_int exitpriority = false →
  ∃ s',
    Finalize.__init__ obj cb args kwargs exitpriority s =
      (Propagated (mkExn TypeError [exitpriority]), s', []) ∧
    s' = s ∧
    _finalizer_registry s' = _finalizer_registry s ∧
    _finalizer_counter s' = _finalizer_counter s ∧
    heap s' = heap s.
Proof.
  intros Hn Hi. exists s. split; [by apply init_type_error|done].
Qed.
End RegistrationClaims.

(** ** Sorting *)

Section SortBy.
Context {A : Type} (before : A → A → bool).
Implicit Types (x h : A) (l : list A).

Hypothesis before_asym : ∀ a b, before a b = true → before b a = false.
Hypothesis may_precede_trans : ∀ a b c,
  may_precede before a b → may_precede before b c → may_precede before a c.

Lemma insert_by_perm x l : insert_by before x l ≡ₚ x :: l.
Proof.
  induction l as [|h t IH]; simpl; [done|].
  destruct (before h x); [|done].
  rewrite IH. apply Permutation_swap.
Qed.

Lemma sort_by_perm l : sort_by before l ≡ₚ l.
Proof.
  induction l as [|h t IH]; simpl; [done|].
  rewrite insert_by_perm. by rewrite IH.
Qed.

Lemma insert_by_sorted x l :
  StronglySorted (may_precede before) l →
  StronglySorted (may_precede before) (insert_by before x l).
Proof.
  induction 1 as [|h t Hs IH Hall]; simpl.
  - repeat constructor.
  - destruct (before h x) eqn:Hb.
    + constructor; [done|].
      rewrite insert_by_perm. constructor; [|done].
      by apply before_asym.
    + constructor; [by constructor|].
      constructor; [done|].
      eapply Forall_impl; [exact Hall|]. intros b Hb'.
      by apply (may_precede_trans x h b).
Qed.

Lemma sort_by_sorted l : StronglySorted (may_precede before) (sort_by before l).
Proof.
  induction l as [|h t IH]; simpl; [constructor|].
  by apply insert_by_sorted.
Qed.

(** When distinct elements are always ordered one way or the other, a
    sorted list without duplicates is strictly sorted. *)
Lemma sorted_strict (P : A → Prop) l :
  (∀ a b, P a → P b → a ≠ b → may_precede before a b → before a b = true) →
  Forall P l → NoDup l →
  StronglySorted (may_precede before) l →
  StronglySorted (λ a b, before a b = true) l.
Proof.
  intros Htotal HP Hnd Hs. induction Hs as [|h t Hs IH Hall].
  - constructor.
  - apply Forall_cons in HP as [Ph Pt]. apply NoDup_cons in Hnd as [Hnin Hnd].
    constructor; [by apply IH|].
    apply Forall_forall. intros b Hb.
    apply Htotal; [done| | |].
    + by eapply Forall_forall in Pt.
    + intros ->. by apply Hnin, list_elem_of_In.
    + by eapply Forall_forall in Hall.
Qed.
End SortBy.

(** Two strictly sorted lists with the same elements are the same list. *)
Lemma strictly_sorted_unique {A} (lt : A → A → Prop) (l1 l2 : list A) :
  (∀ a b, lt a b → lt b a → False) →
  StronglySorted lt l1 → StronglySorted lt l2 → l1 ≡ₚ l2 → l1 = l2.
Proof.
  intros Hasym Hs1. revert l2.
  induction Hs1 as [|h1 t1 Hs1 IH Hall1]; intros l2 Hs2 Hperm.
  - by apply Permutation_nil_l in Hperm.
  - destruct Hs2 as [|h2 t2 Hs2 Hall2].
    { by apply Permutation_nil_r in Hperm. }
    assert (h1 = h2) as ->.
    { assert (h1 ∈ h2 :: t2) as Hin1 by (rewrite <- Hperm; left).
      assert (h2 ∈ h1 :: t1) as Hin2 by (rewrite Hperm; left).
      apply elem_of_cons in Hin1 as [?|Hin1]; [done|].
      apply elem_of_cons in Hin2 as [?|Hin2]; [done|].
      rewrite Forall_forall in Hall1, Hall2.
      destruct (Hasym h1 h2); [by apply Hall1|by apply Hall2]. }
    f_equal. apply IH; [done|]. by apply Permutation_cons_inv in Hperm.
Qed.

Lemma strictly_sorted_snoc {A} (lt : A → A → Prop) (l : list A) (x : A) :
  StronglySorted lt l → Forall (λ a, lt a x) l → StronglySorted lt (l ++ [x]).
Proof.
  induction 1 as [|h t Hs IH Hall]; intros Hlt; simpl.
  - repeat constructor.
  - apply Forall_cons in Hlt as [Hh Ht]. constructor; [by apply IH|].
    apply Forall_app. split; [done|]. by constructor.
Qed.

(** ** The batch runner *)

Ltac bool_to_prop :=
  repeat progress rewrite ?orb_true_iff, ?orb_false_iff, ?andb_true_iff, ?andb_false_iff,
    ?Z.ltb_lt, ?Z.ltb_ge, ?Z.eqb_eq, ?Z.eqb_neq, ?Z.leb_le, ?Z.leb_gt,
    ?Nat.ltb_lt, ?Nat.ltb_ge, ?Nat.eqb_eq, ?Nat.eqb_neq in *.

Section KeyOrder.
Implicit Types (a b c : Key).

Lemma key_ltb_asym a b : key_ltb a b = true → key_ltb b a = false.
Proof.
  destruct a as [[p|] n], b as [[q|] m]; unfold key_ltb; simpl; try done.
  bool_to_prop. lia.
Qed.

Lemma key_ltb_negtrans a b c :
  key_ltb a b = false → key_ltb b c = false → key_ltb a c = false.
Proof.
  destruct a as [[p|] n], b as [[q|] m], c as [[r|] o];
    unfold key_ltb; simpl; try done.
  bool_to_prop. lia.
Qed.

Lemma key_ltb_total a b :
  is_Some a.1 → is_Some b.1 → a ≠ b → key_ltb a b = false → key_ltb b a = true.
Proof.
  destruct a as [[p|] n], b as [[q|] m]; unfold key_ltb; simpl;
    intros [? ?] [? ?] Hne; try done.
  bool_to_prop. intros Hlt.
  destruct (decide (p = q)) as [->|]; [|lia].
  destruct (decide (n = m)) as [->|]; [done|lia].
Qed.

Lemma key_ltb_gt a b : is_Some b.1 → key_ltb b a = true → key_gt a b.
Proof.
  destruct a as [[p|] n], b as [[q|] m]; unfold key_ltb, key_gt; simpl;
    intros [? ?]; try done.
  bool_to_prop. intros Hlt. exists p, q. split_and!; [done..|lia].
Qed.
End KeyOrder.

Section Selection.
Context {World : Type} {env : Environment World}.
Implicit Types (s : State World) (k : Key) (minpriority : option Z).

Lemma selects_priority minpriority k :
  selects minpriority k = true ↔
  ∃ p, k.1 = Some p ∧ ∀ m, minpriority = Some m → m ≤ p.
Proof.
  unfold selects. destruct minpriority as [m|], k as [[p|] n]; simpl.
  - rewrite Z.leb_le. split.
    + intros Hle. exists p. split; [done|]. intros ? [= <-]. done.
    + intros (? & [= <-] & Hm). by apply Hm.
  - split; [done|]. by intros (? & ? & _).
  - split; [|done]. intros _. exists p. by split.
  - split; [done|]. by intros (? & ? & _).
Qed.

Lemma elem_of_registry_keys s k :
  k ∈ (map_to_list (_finalizer_registry s)).*1 ↔
  is_Some (_finalizer_registry s !! k).
Proof.
  rewrite list_elem_of_fmap. split.
  - intros ([k' f] & -> & Hin). apply elem_of_map_to_list in Hin. by eexists.
  - intros [f Hf]. exists (k, f). split; [done|]. by apply elem_of_map_to_list.
Qed.

Lemma selected_keys_perm minpriority s :
  selected_keys minpriority s ≡ₚ
  List.filter (selects minpriority) (map_to_list (_finalizer_registry s)).*1.
Proof. apply sort_by_perm. Qed.

Lemma elem_of_selected_keys minpriority s k :
  k ∈ selected_keys minpriority s ↔
  is_Some (_finalizer_registry s !! k) ∧ selects minpriority k = true.
Proof.
  rewrite selected_keys_perm, list_elem_of_In, filter_In, <- list_elem_of_In.
  by rewrite elem_of_registry_keys.
Qed.

Lemma selected_keys_NoDup minpriority s : NoDup (selected_keys minpriority s).
Proof.
  rewrite selected_keys_perm.
  apply NoDup_ListNoDup, List.NoDup_filter, NoDup_ListNoDup.
  apply NoDup_fst_map_to_list.
Qed.

Lemma selected_keys_sorted minpriority s :
  StronglySorted key_gt (selected_keys minpriority s).
Proof.
  assert (Forall (λ k, is_Some k.1) (selected_keys minpriority s)) as HP.
  { apply Forall_forall. intros k Hk.
    apply elem_of_selected_keys in Hk as [_ Hsel].
    apply selects_priority in Hsel as (p & -> & _). by eexists. }
  pose proof (selected_keys_NoDup minpriority s) as Hnd.
  assert (StronglySorted (λ a b, key_ltb b a = true)
            (selected_keys minpriority s)) as Hs.
  { apply (sorted_strict (λ h x, key_ltb x h) (λ k, is_Some k.1)); [|done..|].
    - unfold may_precede. intros a b Ha Hb Hne Hab.
      apply key_ltb_total; [done..|]. exact Hab.
    - apply sort_by_sorted.
      + intros a b. apply key_ltb_asym.
      + unfold may_precede. intros a b c Hab Hbc.
        by apply (key_ltb_negtrans a b c). }
  revert HP Hs. generalize (selected_keys minpriority s). intros l HP Hs.
  induction Hs as [|h t Hs IH Hall]; [constructor|].
  apply Forall_cons in HP as [Ph Pt]. constructor; [by apply IH|].
  rewrite Forall_forall in Hall, Pt |- *. intros b Hb.
  apply key_ltb_gt; [by apply Pt|by apply Hall].
Qed.
End Selection.

Section BatchRun.
Context {World : Type} {env : Environment World}.
Implicit Types (s : State World) (k : Key) (f : Fid) (minpriority : option Z).
Implicit Types (t : list Event).

Lemma finalizers_invoked_app t1 t2 :
  finalizers_invoked (t1 ++ t2) = finalizers_invoked t1 ++ finalizers_invoked t2.
Proof. apply omap_app. Qed.

Lemma pids_with_cleared s f fin :
  heap s !! f = Some fin →
  _pid <$> heap (with_cleared f fin s) = _pid <$> heap s.
Proof.
  intros Hf.
  change (heap (with_cleared f fin s)) with (<[f := cleared fin]> (heap s)).
  rewrite list_fmap_insert. apply list_insert_id.
  apply list_lookup_fmap_Some. by exists fin.
Qed.

(** What an invocation of a registered instance does, whatever its course. *)
Lemma call_registered s k f r s' t :
  wf s → _finalizer_registry s !! k = Some f →
  Finalize.__call__ f s = (r, s', t) →
  _finalizer_registry s' = delete k (_finalizer_registry s) ∧
  finalizer_registry_bound s' = finalizer_registry_bound s ∧
  os_getpid s' = os_getpid s ∧
  _pid <$> heap s' = _pid <$> heap s ∧
  finalizers_invoked t = [] ∧
  (callbacks_called t = [] ∨ callbacks_called t = [f]) ∧
  ((∀ fin, heap s !! f = Some fin → _pid fin = os_getpid s) →
   callbacks_called t = [f]).
Proof.
  intros Hwf Hreg Heq.
  destruct (wf_registered s Hwf k f Hreg)
    as (fin & Hf & Hk & [cb Hcb] & [args Hargs] & [kwargs Hkwargs]).
  destruct (decide (_pid fin = os_getpid s)) as [Hp|Hp].
  2:{ rewrite (call_other_process s f fin k f Hf Hk Hreg Hp) in Heq.
      simplify_eq. split_and!; try done.
      - by apply (pids_with_cleared (removed k s)).
      - by left.
      - intros Hall. by destruct Hp; apply Hall. }
  destruct (call cb args kwargs (world s)) as [[v|e] w] eqn:Hcall.
  - rewrite (call_returns s f fin k f cb args kwargs v w) in Heq by done.
    simplify_eq. split_and!; try done.
    + by apply (pids_with_cleared (set_world w (removed k s))).
    + by right.
  - rewrite (call_raises s f fin k f cb args kwargs e w) in Heq by done.
    simplify_eq. split_and!; try done. by right.
Qed.

(** The loop body propagates nothing that [except Exception] catches. *)
Lemma run_finalizer_propagates s k e s' t :
  run_finalizer k s = (Propagated e, s', t) → is_Exception e = false.
Proof.
  unfold run_finalizer. unfold_monad_all.
  destruct (_finalizer_registry s !! k) as [f|]; [|done].
  destruct (Finalize.__call__ f s) as [[[v|e'] s1] t1]; [done|].
  destruct (is_Exception e') eqn:He; [done|]. by intros [= <- _ _].
Qed.

(** One turn of the loop at a key that is registered. *)
Lemma run_finalizer_registered s k f r s' t :
  wf s → _finalizer_registry s !! k = Some f →
  run_finalizer k s = (r, s', t) →
  wf s' ∧
  _finalizer_registry s' = delete k (_finalizer_registry s) ∧
  finalizer_registry_bound s' = finalizer_registry_bound s ∧
  os_getpid s' = os_getpid s ∧
  _pid <$> heap s' = _pid <$> heap s ∧
  finalizers_invoked t = [f] ∧
  ((∀ fin, heap s !! f = Some fin → _pid fin = os_getpid s) →
   callbacks_called t = [f]).
Proof.
  intros Hwf Hreg Heq.
  pose proof (good_run_finalizer k s r s' t Hwf Heq) as [Hwf' _ _ _].
  split; [done|]. clear Hwf'.
  unfold run_finalizer in Heq. unfold_monad_all. rewrite Hreg in Heq.
  destruct (Finalize.__call__ f s) as [[r1 s1] t1] eqn:Hcall.
  destruct (call_registered s k f r1 s1 t1 Hwf Hreg Hcall)
    as (Hr & Hb & Hp & Hh & Hinv & _ & Hcb).
  assert (finalizers_invoked t = [f] ∧ callbacks_called t = callbacks_called t1
          ∧ s' = s1) as (Ht & Hc & ->).
  { destruct r1 as [v|e]; simpl in Heq.
    - simplify_eq. rewrite !app_nil_r. simpl. by rewrite Hinv.
    - destruct (is_Exception e); simplify_eq; simpl.
      + rewrite ?app_nil_r, finalizers_invoked_app, callbacks_called_app, Hinv.
        simpl. by rewrite app_nil_r.
      + by rewrite Hinv. }
  split_and!; try done. intros Hall. rewrite Hc. by apply Hcb.
Qed.

Lemma finalizers_at_delete s s' k keys :
  k ∉ keys →
  _finalizer_registry s' = delete k (_finalizer_registry s) →
  finalizers_at keys s' = finalizers_at keys s.
Proof.
  intros Hnin Hr. unfold finalizers_at. rewrite Hr.
  induction keys as [|k' keys IH]; [done|]. csimpl.
  apply not_elem_of_cons in Hnin as [Hne Hnin].
  rewrite lookup_delete_ne by done. by rewrite IH.
Qed.

(** The loop of [_run_finalizers] over keys that are all registered. *)
Lemma run_finalizers_loop keys s r s' t :
  wf s → NoDup keys →
  (∀ k, k ∈ keys → is_Some (_finalizer_registry s !! k)) →
  for_each keys run_finalizer s = (r, s', t) →
  wf s' ∧
  finalizer_registry_bound s' = finalizer_registry_bound s ∧
  finalizers_invoked t `prefix_of` finalizers_at keys s ∧
  (r = Returned tt → finalizers_invoked t = finalizers_at keys s) ∧
  (all_in_this_process s → callbacks_called t = finalizers_invoked t) ∧
  (∀ e, r = Propagated e → is_Exception e = false).
Proof.
  revert s r s' t. induction keys as [|k keys IH]; intros s r s' t Hwf Hnd Hreg Heq.
  - simpl in Heq. unfold ret in Heq. simplify_eq. simpl.
    split_and!; try done.
  - apply NoDup_cons in Hnd as [Hnin Hnd].
    destruct (Hreg k) as [f Hf]; [left|].
    simpl in Heq. unfold bind in Heq.
    destruct (run_finalizer k s) as [[r1 s1] t1] eqn:Hstep.
    destruct (run_finalizer_registered s k f r1 s1 t1 Hwf Hf Hstep)
      as (Hwf1 & Hr1 & Hb1 & Hp1 & Hh1 & Hinv1 & Hcb1).
    assert (finalizers_at (k :: keys) s = f :: finalizers_at keys s1) as Hat.
    { unfold finalizers_at at 1. simpl. rewrite Hf. f_equal.
      symmetry. by eapply finalizers_at_delete. }
    assert (all_in_this_process s → all_in_this_process s1) as Hall1.
    { unfold all_in_this_process. rewrite Hp1. intros Hall.
      apply (Forall_fmap _pid (λ p, p = os_getpid s)).
      rewrite Hh1. by apply Forall_fmap. }
    assert (all_in_this_process s → callbacks_called t1 = [f]) as Hcb1'.
    { intros Hall. apply Hcb1. intros fin Hfin.
      by apply (Forall_lookup_1 _ _ _ _ Hall Hfin). }
    destruct r1 as [[]|e].
    + destruct (for_each keys run_finalizer s1) as [[r2 s2] t2] eqn:Hrest.
      simplify_eq.
      destruct (IH s1 r s' t2 Hwf1 Hnd) as (Hwf2 & Hb2 & Hpre & Hfull & Hcb2 & Hprop);
        [|done|].
      { intros k' Hk'. rewrite Hr1, lookup_delete_ne; [apply Hreg; by right|].
        intros ->. done. }
      rewrite finalizers_invoked_app, callbacks_called_app, Hinv1, Hat.
      split_and!; try done.
      * congruence.
      * by apply prefix_cons.
      * intros Hret. simpl. f_equal. by apply Hfull.
      * intros Hall. rewrite Hcb1' by done. simpl. f_equal. by apply Hcb2, Hall1.
    + simplify_eq. rewrite Hinv1, Hat. split_and!.
      * done.
      * done.
      * apply prefix_cons, prefix_nil.
      * done.
      * intros Hall. by apply Hcb1'.
      * intros e' [= <-]. by eapply run_finalizer_propagates.
Qed.
End BatchRun.

Section BatchRunClaims.
Context {World : Type} {env : Environment World}.
Implicit Types (s : State World) (k : Key) (f : Fid) (minpriority : option Z).
Implicit Types (t : list Event).

(** Case analysis on an invocation. *)
Lemma call_elim s self (P : Result PyVal * State World * list Event → Prop) :
  (heap s !! self = None → P (Propagated (mkExn AttributeError []), s, [])) →
  (unregistered self s →
   P (Returned PyNone, s, [EvLog SUBDEBUG finalizer_no_longer_registered])) →
  (∀ fin k g, heap s !! self = Some fin → _key fin = Some k →
     _finalizer_registry s !! k = Some g → _pid fin ≠ os_getpid s →
     P (Returned PyNone, with_cleared self fin (removed k s),
        [EvLog SUBDEBUG finalizer_ignored_because_different_process])) →
  (∀ fin k g, heap s !! self = Some fin → _key fin = Some k →
     _finalizer_registry s !! k = Some g → _pid fin = os_getpid s →
     P (Propagated (mkExn TypeError []), removed k s,
        [EvLog SUBDEBUG
           (finalizer_calling (_callback fin) (_args fin) (_kwargs fin))])) →
  (∀ fin k g cb args kwargs v w, heap s !! self = Some fin →
     _key fin = Some k → _finalizer_registry s !! k = Some g →
     _pid fin = os_getpid s →
     call cb args kwargs (world s) = (Returned v, w) →
     P (Returned v, with_cleared self fin (set_world w (removed k s)),
        [EvLog SUBDEBUG (finalizer_calling (Some cb) (Some args) (Some kwargs));
         EvCallback self cb args kwargs])) →
  (∀ fin k g cb args kwargs e w, heap s !! self = Some fin →
     _key fin = Some k → _finalizer_registry s !! k = Some g →
     _pid fin = os_getpid s →
     call cb args kwargs (world s) = (Propagated e, w) →
     P (Propagated e, set_world w (removed k s),
        [EvLog SUBDEBUG (finalizer_calling (Some cb) (Some args) (Some kwargs));
         EvCallback self cb args kwargs])) →
  P (Finalize.__call__ self s).
Proof.
  intros Hdangling Hunreg Hother Hnocall Hret Hraise.
  destruct (heap s !! self) as [fin|] eqn:Hself.
  2:{ rewrite (call_dangling s self Hself). by apply Hdangling. }
  destruct (_key fin) as [k|] eqn:Hk.
  2:{ rewrite (call_no_key s self fin Hself Hk). apply Hunreg.
      exists fin. split; [done|]. intros k. by rewrite Hk. }
  destruct (_finalizer_registry s !! k) as [g|] eqn:Hreg.
  2:{ rewrite (call_unregistered s self fin k Hself Hk Hreg). apply Hunreg.
      exists fin. split; [done|]. intros k' Hk'. by simplify_eq. }
  destruct (decide (_pid fin = os_getpid s)) as [Hp|Hp].
  2:{ rewrite (call_other_process s self fin k g Hself Hk Hreg Hp).
      by eapply Hother. }
  destruct (_callback fin) as [cb|] eqn:Hcb; cycle 1.
  { rewrite (call_not_callable s self fin k g) by eauto. by eapply Hnocall. }
  destruct (_args fin) as [args|] eqn:Hargs; cycle 1.
  { rewrite (call_not_callable s self fin k g) by eauto. by eapply Hnocall. }
  destruct (_kwargs fin) as [kwargs|] eqn:Hkwargs; cycle 1.
  { rewrite (call_not_callable s self fin k g) by eauto. by eapply Hnocall. }
  destruct (call cb args kwargs (world s)) as [[v|e] w] eqn:Hcall.
  - rewrite (call_returns s self fin k g cb args kwargs v w) by done.
    by eapply Hret.
  - rewrite (call_raises s self fin k g cb args kwargs e w) by done.
    by eapply Hraise.
Qed.

(** Whatever an invocation propagates is an instance of [Exception] when
    the user functions raise nothing else. *)
Lemma call_propagates_Exception s self e s' t :
  raises_only_Exception →
  Finalize.__call__ self s = (Propagated e, s', t) → is_Exception e = true.
Proof.
  intros Henv. revert e s' t.
  apply (call_elim s self (λ out, ∀ e s' t, out = (Propagated e, s', t) →
           is_Exception e = true)); intros; simplify_eq; try done.
  by eapply Henv.
Qed.

Lemma run_finalizer_returns s k :
  raises_only_Exception →
  ∃ s' t, run_finalizer k s = (Returned tt, s', t).
Proof.
  intros Henv. destruct (run_finalizer k s) as [[[[]|e] s'] t] eqn:Heq.
  { by eexists _, _. }
  exfalso. pose proof (run_finalizer_propagates s k e s' t Heq) as Hno.
  unfold run_finalizer in Heq. unfold_monad_all.
  destruct (_finalizer_registry s !! k) as [f|]; [|done].
  destruct (Finalize.__call__ f s) as [[[v|e'] s1] t1] eqn:Hcall; [done|].
  pose proof (call_propagates_Exception s f e' s1 t1 Henv Hcall) as Hyes.
  rewrite Hyes in Heq. done.
Qed.

Lemma for_each_returns {A} (body : A → M World unit) (l : list A) s :
  (∀ x s, ∃ s' t, body x s = (Returned tt, s', t)) →
  ∃ s' t, for_each l body s = (Returned tt, s', t).
Proof.
  intros Hbody. revert s. induction l as [|x l IH]; intros s; simpl.
  - by eexists _, _.
  - unfold bind. destruct (Hbody x s) as (s1 & t1 & ->).
    destruct (IH s1) as (s2 & t2 & ->). by eexists _, _.
Qed.

Lemma for_each_propagates {A} (body : A → M World unit) (Q : Exn → Prop)
    (l : list A) s e s' t :
  (∀ x s e s' t, body x s = (Propagated e, s', t) → Q e) →
  for_each l body s = (Propagated e, s', t) → Q e.
Proof.
  intros Hbody. revert s t. induction l as [|x l IH]; intros s t Hloop.
  - done.
  - simpl in Hloop. unfold bind in Hloop.
    destruct (body x s) as [[[[]|e'] s2] t2] eqn:Hstep.
    + destruct (for_each l body s2) as [[r3 s3] t3] eqn:Hrest.
      simplify_eq. by eapply IH.
    + simplify_eq. by eapply Hbody.
Qed.

(** [_run_finalizers] in terms of its loop, in a live module. *)
Lemma run_finalizers_bound minpriority s :
  finalizer_registry_bound s = true →
  _run_finalizers minpriority s =
    match for_each (selected_keys minpriority s) run_finalizer s with
    | (Returned _, s1, t1) =>
        (Returned tt,
         match minpriority with
         | None => set_finalizer_registry ∅ s1
         | Some _ => s1
         end, t1)
    | (Propagated e, s1, t1) => (Propagated e, s1, t1)
    end.
Proof.
  intros Hb. unfold _run_finalizers. unfold_monad_all. rewrite Hb. simpl.
  destruct (for_each _ _ s) as [[[[]|e] s1] t1]; [|done].
  destruct minpriority; by rewrite app_nil_r.
Qed.

Lemma run_finalizers_unbound minpriority s :
  finalizer_registry_bound s = false →
  _run_finalizers minpriority s = (Returned tt, s, []).
Proof.
  intros Hb. unfold _run_finalizers. unfold_monad_all. by rewrite Hb.
Qed.

End BatchRunClaims.

Section BatchOrder.
Context {World : Type} {env : Environment World}.
Implicit Types (s : State World) (k : Key) (f : Fid) (minpriority : option Z).
Implicit Types (t : list Event).

Lemma finalizers_at_registered keys s :
  (∀ k, k ∈ keys → is_Some (_finalizer_registry s !! k)) →
  Forall2 (λ k f, _finalizer_registry s !! k = Some f) keys (finalizers_at keys s).
Proof.
  induction keys as [|k keys IH]; intros Hreg; [constructor|].
  unfold finalizers_at. csimpl.
  destruct (Hreg k) as [f Hf]; [left|]. rewrite Hf. simpl.
  constructor; [done|]. apply IH. intros k' Hk'. apply Hreg. by right.
Qed.

(** The batch run from a well-formed state of a live module. *)
Lemma batch_run_in_order s minpriority r s' t :
  wf s → finalizer_registry_bound s = true →
  _run_finalizers minpriority s = (r, s', t) →
  let keys := selected_keys minpriority s in
  finalizers_invoked t `prefix_of` finalizers_at keys s ∧
  (r = Returned tt → finalizers_invoked t = finalizers_at keys s) ∧
  (∀ e, r = Propagated e → is_Exception e = false) ∧
  (all_in_this_process s → callbacks_called t = finalizers_invoked t).
Proof.
  intros Hwf Hb Heq keys. rewrite (run_finalizers_bound _ _ Hb) in Heq.
  destruct (for_each (selected_keys minpriority s) run_finalizer s)
    as [[r1 s1] t1] eqn:Hloop.
  destruct (run_finalizers_loop _ s r1 s1 t1 Hwf
              (selected_keys_NoDup minpriority s)) as (_ & _ & Hpre & Hfull & Hcb & Hprop);
    [|done|].
  { intros k Hk. by apply elem_of_selected_keys in Hk as [? _]. }
  destruct r1 as [[]|e]; simplify_eq; by split_and!.
Qed.

End BatchOrder.

(** ** The after-fork runner *)

Section ItemOrder.
Implicit Types (a b c : AfterForkKey * Obj).

Lemma item_ltb_asym a b : item_ltb a b = true → item_ltb b a = false.
Proof.
  destruct a as [[[i1 o1] f1] v1], b as [[[i2 o2] f2] v2]. unfold item_ltb; simpl.
  bool_to_prop. lia.
Qed.

Lemma item_ltb_negtrans a b c :
  item_ltb b a = false → item_ltb c b = false → item_ltb c a = false.
Proof.
  destruct a as [[[i1 o1] f1] v1], b as [[[i2 o2] f2] v2],
    c as [[[i3 o3] f3] v3]. unfold item_ltb; simpl.
  bool_to_prop. lia.
Qed.

Lemma item_ltb_total a b : a ≠ b → item_ltb b a = false → item_ltb a b = true.
Proof.
  destruct a as [[[i1 o1] f1] v1], b as [[[i2 o2] f2] v2]. unfold item_ltb; simpl.
  intros Hne. bool_to_prop. intros Hlt.
  destruct (decide (i1 = i2)) as [->|]; [|lia].
  destruct (decide (o1 = o2)) as [->|]; [|lia].
  destruct (decide (f1 = f2)) as [->|]; [|lia].
  destruct (decide (v1 = v2)) as [->|]; [done|lia].
Qed.

Lemma item_lt_asym a b : item_lt a b → item_lt b a → False.
Proof.
  unfold item_lt. intros Hab Hba. apply item_ltb_asym in Hab. congruence.
Qed.
End ItemOrder.

Section AfterFork.
Context {World : Type} {env : Environment World}.
Implicit Types (s : State World) (t : list Event).
Implicit Types (item : AfterForkKey * Obj).

Lemma after_fork_calls_app t1 t2 :
  after_fork_calls (t1 ++ t2) = after_fork_calls t1 ++ after_fork_calls t2.
Proof. apply omap_app. Qed.

Lemma after_fork_items_perm s :
  after_fork_items s ≡ₚ map_to_list (_afterfork_registry s).
Proof. apply sort_by_perm. Qed.

Lemma after_fork_items_sorted s : StronglySorted item_lt (after_fork_items s).
Proof.
  apply (sorted_strict item_ltb (λ _, True)).
  - unfold may_precede. intros a b _ _ Hne Hab. by apply item_ltb_total.
  - by apply Forall_true.
  - rewrite after_fork_items_perm. apply NoDup_map_to_list.
  - apply sort_by_sorted.
    + apply item_ltb_asym.
    + unfold may_precede. intros a b c. apply item_ltb_negtrans.
Qed.

(** One turn of the loop of [_run_after_forkers]. *)
Lemma run_after_forker_cases item s :
  let func := item.1.2 in
  let obj := item.2 in
  match call func [PyObj obj] [] (world s) with
  | (Returned _, w) =>
      run_after_forker item s =
        (Returned tt, set_world w s, [EvAfterFork func obj])
  | (Propagated e, w) =>
      run_after_forker item s =
        if is_Exception e
        then (Returned tt, set_world w s,
              [EvAfterFork func obj; EvLog INFO (after_forker_raised_exception e)])
        else (Propagated e, set_world w s, [EvAfterFork func obj])
  end.
Proof.
  destruct item as [[[index ident] func] obj]. simpl.
  unfold run_after_forker. unfold_monad_all.
  destruct (call func [PyObj obj] [] (world s)) as [[v|e] w]; [done|].
  by destruct (is_Exception e).
Qed.

Lemma run_after_forker_calls item s r s' t :
  run_after_forker item s = (r, s', t) →
  after_fork_calls t = [(item.1.2, item.2)] ∧
  (∀ e, r = Propagated e → is_Exception e = false) ∧
  (raises_only_Exception → r = Returned tt).
Proof.
  intros Heq. pose proof (run_after_forker_cases item s) as Hcases.
  simpl in Hcases.
  destruct (call item.1.2 [PyObj item.2] [] (world s)) as [[v|e] w] eqn:Hcall.
  - rewrite Hcases in Heq. by simplify_eq.
  - rewrite Hcases in Heq. destruct (is_Exception e) eqn:He; simplify_eq.
    + done.
    + split_and!; [done|by intros ? [= <-]|].
      intros Henv. specialize (Henv _ _ _ _ _ _ Hcall). congruence.
Qed.

(** The loop of [_run_after_forkers]. *)
Lemma run_after_forkers_loop (items : list (AfterForkKey * Obj)) s r s' t :
  for_each items run_after_forker s = (r, s', t) →
  after_fork_calls t `prefix_of` calls_of items ∧
  (r = Returned tt → after_fork_calls t = calls_of items) ∧
  (∀ e, r = Propagated e → is_Exception e = false) ∧
  (raises_only_Exception → r = Returned tt).
Proof.
  revert s t. induction items as [|item items IH]; intros s t Heq.
  - simpl in Heq. unfold ret in Heq. by simplify_eq.
  - simpl in Heq. unfold bind in Heq.
    destruct (run_after_forker item s) as [[r1 s1] t1] eqn:Hstep.
    destruct (run_after_forker_calls item s r1 s1 t1 Hstep)
      as (Hcall & Hprop & Henv).
    destruct r1 as [[]|e].
    + destruct (for_each items run_after_forker s1) as [[r2 s2] t2] eqn:Hrest.
      simplify_eq. destruct (IH s1 t2 Hrest) as (Hpre & Hfull & Hprop2 & Henv2).
      rewrite after_fork_calls_app, Hcall. simpl. split_and!.
      * by apply prefix_cons.
      * intros Hret. f_equal. by apply Hfull.
      * done.
      * done.
    + simplify_eq. rewrite Hcall. split_and!.
      * apply prefix_cons, prefix_nil.
      * done.
      * done.
      * intros Hyes. by specialize (Henv Hyes).
Qed.

Lemma run_after_forkers_unfold s :
  _run_after_forkers s =
    let '(r, s', t) := for_each (after_fork_items s) run_after_forker s in
    (r, s', t).
Proof.
  unfold _run_after_forkers. unfold_monad_all.
  by destruct (for_each _ _ s) as [[r s'] t].
Qed.

(** Registration for the fork appends to the sorted items. *)
Lemma after_fork_items_register s obj func :
  wf s →
  after_fork_items (attempt (register_after_fork obj func) s).1 =
  after_fork_items s ++ [((_afterfork_counter s, obj, func), obj)].
Proof.
  intros Hwf. unfold attempt, register_after_fork, modify. simpl.
  assert (_afterfork_registry s !! (_afterfork_counter s, obj, func) = None)
    as Hfresh.
  { destruct (_afterfork_registry s !! _) as [v|] eqn:E; [|done].
    pose proof (wf_afterfork s Hwf _ _ _ _ E). lia. }
  apply (strictly_sorted_unique item_lt).
  - apply item_lt_asym.
  - apply after_fork_items_sorted.
  - apply strictly_sorted_snoc; [apply after_fork_items_sorted|].
    apply Forall_forall. intros [[[i o] f] v] Hin.
    rewrite after_fork_items_perm in Hin.
    apply elem_of_map_to_list in Hin.
    pose proof (wf_afterfork s Hwf _ _ _ _ Hin) as Hlt.
    unfold item_lt, item_ltb. apply orb_true_iff. left.
    by apply Nat.ltb_lt.
  - rewrite after_fork_items_perm. simpl.
    rewrite map_to_list_insert by done.
    rewrite <- Permutation_cons_append. by rewrite after_fork_items_perm.
Qed.

Lemma calls_of_app (l1 l2 : list (AfterForkKey * Obj)) :
  calls_of (l1 ++ l2) = calls_of l1 ++ calls_of l2.
Proof. apply fmap_app. Qed.

Lemma run_ops_cons_state o ops s :
  (run_ops (o :: ops) s).1 = (run_ops ops (run_op o s).1).1.
Proof.
  simpl. destruct (run_op o s) as [s1 t1]. simpl.
  by destruct (run_ops ops s1) as [s2 t2].
Qed.

Lemma after_fork_items_register_all s regs :
  wf s →
  calls_of (after_fork_items (run_ops (register_all regs) s).1) =
  calls_of (after_fork_items s) ++ calls_for regs.
Proof.
  revert s. induction regs as [|[obj func] regs IH]; intros s Hwf.
  - simpl. by rewrite app_nil_r.
  - change (register_all ((obj, func) :: regs))
      with (OpRegisterAfterFork obj func :: register_all regs).
    rewrite run_ops_cons_state.
    change (run_op (OpRegisterAfterFork obj func) s)
      with (attempt (register_after_fork obj func) s).
    rewrite IH.
    + rewrite after_fork_items_register by done.
      rewrite calls_of_app. simpl. by rewrite <- app_assoc.
    + destruct (attempt (register_after_fork obj func) s) as [s1 t1] eqn:Hstep.
      by pose proof (run_op_ok (OpRegisterAfterFork obj func) s s1 t1 Hwf Hstep)
        as [? _ _ _].
Qed.
End AfterFork.

Section RunnerClaims.
Context {World : Type} {env : Environment World}.
Implicit Types (s : State World) (t : list Event).


Lemma run_finalizers_returns minpriority s :
  raises_only_Exception →
  ∃ s' t, _run_finalizers minpriority s = (Returned tt, s', t).
Proof.
  intros Henv. destruct (finalizer_registry_bound s) eqn:Hb.
  - rewrite (run_finalizers_bound _ _ Hb).
    destruct (for_each_returns run_finalizer (selected_keys minpriority s) s)
      as (s1 & t1 & ->); [|by eexists _, _].
    intros k s0. by apply run_finalizer_returns.
  - rewrite (run_finalizers_unbound _ _ Hb). by eexists _, _.
Qed.

(** One turn of the batch loop whose callback raises an [Exception]. *)
Lemma run_finalizer_catches s k f fin cb args kwargs e w :
  _finalizer_registry s !! k = Some f →
  heap s !! f = Some fin → _key fin = Some k → _pid fin = os_getpid s →
  _callback fin = Some cb → _args fin = Some args →
  _kwargs fin = Some kwargs →
  call cb args kwargs (world s) = (Propagated e, w) →
  is_Exception e = true →
  run_finalizer k s =
    (Returned tt, set_world w (removed k s),
     [EvLog SUBDEBUG (calling f);
      EvLog SUBDEBUG (finalizer_calling (Some cb) (Some args) (Some kwargs));
      EvCallback f cb args kwargs;
      EvTraceback e]).
Proof.
  intros Hreg Hf Hk Hp Hcb Hargs Hkwargs Hcall He.
  unfold run_finalizer. unfold mbind, M_bind, bind, get. rewrite Hreg.
  unfold sub_debug, emit, try_except, try_except_else.
  unfold mbind, M_bind, bind.
  rewrite (call_raises s f fin k f cb args kwargs e w) by done.
  by rewrite He.
Qed.

End RunnerClaims.

(** ** The exit function *)

(** Relations between the state before, the state after and the trace that
    hold of every step and compose along a run are kept by the combinators
    of the monad. *)
Section Keeps.
Context {World : Type}.
Variable R : State World → State World → list Event → Prop.
Hypothesis R_refl : ∀ s, R s s [].
Hypothesis R_trans : ∀ s s1 s2 t1 t2,
  R s s1 t1 → R s1 s2 t2 → R s s2 (t1 ++ t2).

Lemma keeps_ret {A} (a : A) : keeps R (mret a).
Proof using R_refl. intros s r s' t Heq. unfold_monad. by simplify_eq. Qed.

Lemma keeps_raise {A} e : keeps R (raise e : M World A).
Proof using R_refl. intros s r s' t Heq. unfold_monad. by simplify_eq. Qed.

Lemma keeps_get : keeps R get.
Proof using R_refl. intros s r s' t Heq. unfold_monad. by simplify_eq. Qed.

Lemma keeps_bind {A B} (m : M World A) (k : A → M World B) :
  keeps R m → (∀ a, keeps R (k a)) → keeps R (m ≫= k).
Proof using R_trans.
  intros Hm Hk s r s' t Heq. unfold mbind, M_bind, bind in Heq.
  destruct (m s) as [[[a|e] s1] t1] eqn:Em.
  - destruct (k a s1) as [[r2 s2] t2] eqn:Ek. simplify_eq.
    eapply R_trans; [by eapply Hm|by eapply Hk].
  - simplify_eq. by eapply Hm.
Qed.

Lemma keeps_try_except_else {A B} (body : M World A) caught
    (handler : Exn → M World B) (orelse : A → M World B) :
  keeps R body → (∀ e, keeps R (handler e)) → (∀ a, keeps R (orelse a)) →
  keeps R (try_except_else body caught handler orelse).
Proof using R_trans.
  intros Hb Hh Ho s r s' t Heq. unfold try_except_else in Heq.
  destruct (body s) as [[[a|e] s1] t1] eqn:Em.
  - destruct (orelse a s1) as [[r2 s2] t2] eqn:Ek. simplify_eq.
    eapply R_trans; [by eapply Hb|by eapply Ho].
  - destruct (caught e).
    + destruct (handler e s1) as [[r2 s2] t2] eqn:Ek. simplify_eq.
      eapply R_trans; [by eapply Hb|by eapply Hh].
    + simplify_eq. by eapply Hb.
Qed.

Lemma keeps_try_except {A} (body : M World A) caught handler :
  keeps R body → (∀ e, keeps R (handler e)) →
  keeps R (try_except body caught handler).
Proof using R_refl R_trans.
  intros Hb Hh. apply keeps_try_except_else; [done..|].
  intros a. apply (keeps_ret a).
Qed.

Lemma keeps_for_each {A} (l : list A) (body : A → M World unit) :
  (∀ x, keeps R (body x)) → keeps R (for_each l body).
Proof using R_refl R_trans.
  intros Hb. induction l as [|x l IH]; simpl.
  - apply (keeps_ret tt).
  - apply (keeps_bind (body x)); [apply Hb|]. intros _. apply IH.
Qed.
End Keeps.

Section Quiet.
Context {World : Type} {env : Environment World}.
Implicit Types (s : State World) (t : list Event).

Lemma shutdowns_started_app t1 t2 :
  shutdowns_started (t1 ++ t2) =
  (shutdowns_started t1 + shutdowns_started t2)%nat.
Proof. unfold shutdowns_started. by rewrite List.filter_app, length_app. Qed.

Lemma quiet_refl s : quiet s s [].
Proof. done. Qed.

Lemma quiet_trans s s1 s2 t1 t2 :
  quiet s s1 t1 → quiet s1 s2 t2 → quiet s s2 (t1 ++ t2).
Proof.
  intros [He1 Ht1] [He2 Ht2]. split; [congruence|].
  rewrite shutdowns_started_app. lia.
Qed.

#[local] Abbreviation calm := (keeps (World:=World) quiet).

Lemma calm_ret {A} (a : A) : calm (mret a).
Proof. apply keeps_ret, quiet_refl. Qed.

Lemma calm_bind {A B} (m : M World A) (k : A → M World B) :
  calm m → (∀ a, calm (k a)) → calm (m ≫= k).
Proof. apply keeps_bind, quiet_trans. Qed.

Lemma calm_for_each {A} (l : list A) (body : A → M World unit) :
  (∀ x, calm (body x)) → calm (for_each l body).
Proof. apply keeps_for_each; [apply quiet_refl|apply quiet_trans]. Qed.

Lemma calm_try_except_else {A B} (body : M World A) caught
    (handler : Exn → M World B) (orelse : A → M World B) :
  calm body → (∀ e, calm (handler e)) → (∀ a, calm (orelse a)) →
  calm (try_except_else body caught handler orelse).
Proof. apply keeps_try_except_else, quiet_trans. Qed.

Lemma calm_try_except {A} (body : M World A) caught handler :
  calm body → (∀ e, calm (handler e)) →
  calm (try_except body caught handler).
Proof. apply keeps_try_except; [apply quiet_refl|apply quiet_trans]. Qed.

Lemma calm_emit ev : shutdowns_started [ev] = 0%nat → calm (emit ev).
Proof. intros Hev s r s' t Heq. unfold emit in Heq. by simplify_eq. Qed.

Lemma calm_modify (g : State World → State World) :
  (∀ s, _exiting (g s) = _exiting s) → calm (modify g).
Proof. intros Hg s r s' t Heq. unfold modify in Heq. by simplify_eq. Qed.

(** A step that emits nothing and keeps [_exiting]. *)
Lemma calm_silent {A} (m : M World A) :
  (∀ s, _exiting (m s).1.2 = _exiting s ∧ (m s).2 = []) → calm m.
Proof.
  intros Hm s r s' t Heq. destruct (Hm s) as [He Ht]. rewrite Heq in He, Ht.
  simpl in *. by subst.
Qed.

Lemma calm_load self : calm (load self).
Proof. apply calm_silent. intros s. unfold load. by destruct (heap s !! self). Qed.

Lemma calm_del key : calm (del_finalizer_registry key).
Proof.
  apply calm_silent. intros s. unfold del_finalizer_registry.
  destruct key as [k|]; [|done]. by destruct (_finalizer_registry s !! k).
Qed.

Lemma calm_call_function cb args kwargs : calm (call_function cb args kwargs).
Proof.
  apply calm_silent. intros s. unfold call_function.
  by destruct (call cb args kwargs (world s)).
Qed.

Lemma calm_call self : calm (Finalize.__call__ self).
Proof.
  unfold Finalize.__call__. apply calm_bind; [apply calm_load|]. intros fin.
  apply calm_try_except_else; [apply calm_del| |].
  - intros _. apply calm_bind; [by apply calm_emit|]. intros _. apply calm_ret.
  - intros _. apply calm_bind; [by apply calm_silent|]. intros pid.
    apply calm_bind.
    + destruct (negb _).
      * apply calm_bind; [by apply calm_emit|]. intros _. apply calm_ret.
      * apply calm_bind; [by apply calm_emit|]. intros _.
        destruct (_callback fin), (_args fin), (_kwargs fin);
          try (by apply keeps_raise).
        apply calm_bind; [by apply calm_emit|]. intros _.
        apply calm_call_function.
    + intros res. apply calm_bind; [by apply calm_modify|]. intros _.
      apply calm_ret.
Qed.

Lemma calm_cancel self : calm (Finalize.cancel self).
Proof.
  unfold Finalize.cancel. apply calm_bind; [apply calm_load|]. intros fin.
  apply calm_try_except_else; [apply calm_del| |].
  - intros _. apply calm_ret.
  - intros _. by apply calm_modify.
Qed.

Lemma calm_init obj cb args kwargs exitpriority :
  calm (Finalize.__init__ obj cb args kwargs exitpriority).
Proof.
  unfold Finalize.__init__. destruct (_ && _); [by apply keeps_raise|].
  apply calm_bind.
  { destruct obj; [apply calm_ret|].
    destruct (is_None exitpriority); [by apply keeps_raise|apply calm_ret]. }
  intros weakref. apply calm_bind; [by apply calm_silent|]. intros n.
  apply calm_bind; [by apply calm_silent|]. intros pid.
  apply calm_bind; [by apply calm_silent|]. intros s.
  apply calm_bind; [by apply calm_modify|]. intros _.
  apply calm_bind; [by apply calm_modify|]. intros _. apply calm_ret.
Qed.

Lemma calm_run_finalizers minpriority : calm (_run_finalizers minpriority).
Proof.
  unfold _run_finalizers. apply calm_bind; [by apply calm_silent|]. intros s.
  destruct (negb _); [apply calm_ret|].
  apply calm_bind.
  - apply calm_for_each. intros k. unfold run_finalizer.
    apply calm_bind; [by apply calm_silent|]. intros s0.
    destruct (_finalizer_registry s0 !! k) as [f|]; [|apply calm_ret].
    apply calm_bind; [by apply calm_emit|]. intros _.
    apply calm_try_except.
    + apply calm_bind; [apply calm_call|]. intros _. apply calm_ret.
    + intros e. by apply calm_emit.
  - intros _. destruct minpriority; [apply calm_ret|by apply calm_modify].
Qed.

Lemma calm_register_after_fork obj func : calm (register_after_fork obj func).
Proof. by apply calm_modify. Qed.

Lemma calm_run_after_forkers : calm _run_after_forkers.
Proof.
  unfold _run_after_forkers. apply calm_bind; [by apply calm_silent|].
  intros s. apply calm_for_each. intros [[[index ident] func] obj]. simpl.
  apply calm_try_except.
  - apply calm_bind; [by apply calm_emit|]. intros _.
    apply calm_bind; [apply calm_call_function|]. intros _. apply calm_ret.
  - intros e. by apply calm_emit.
Qed.

Lemma calm_get_active_children : calm get_active_children.
Proof.
  apply calm_silent. intros s. unfold get_active_children.
  by destruct (active_children (world s)).
Qed.

Lemma calm_shutdown_children : calm shutdown_children.
Proof.
  unfold shutdown_children. apply calm_bind; [by apply calm_silent|].
  intros s. destruct (current_process (world s)) as [cp|]; [|apply calm_ret].
  apply calm_bind; [apply calm_get_active_children|]. intros ps.
  apply calm_bind.
  { apply calm_for_each. intros p. unfold terminate_daemon.
    destruct (daemon p); [|apply calm_ret].
    apply calm_bind; [by apply calm_emit|]. intros _.
    apply calm_bind; [by apply calm_emit|]. intros _. by apply calm_modify. }
  intros _. apply calm_bind; [apply calm_get_active_children|]. intros ps'.
  apply calm_for_each. intros p. unfold join_child.
  apply calm_bind; [by apply calm_emit|]. intros _.
  apply calm_bind; [by apply calm_emit|]. intros _. by apply calm_modify.
Qed.
End Quiet.

Section ExitFunction.
Context {World : Type} {env : Environment World}.
Implicit Types (s : State World) (t : list Event) (ps : list Process).

Lemma set_world_id s : set_world (world s) s = s.
Proof. by destruct s. Qed.

Lemma terminate_loop ps s :
  for_each ps terminate_daemon s =
    (Returned tt, set_world (terminate_all ps (world s)) s, terminate_events ps).
Proof.
  revert s. induction ps as [|p ps IH]; intros s; simpl.
  - by rewrite set_world_id.
  - unfold bind, terminate_daemon.
    destruct (daemon p); unfold_monad_all; by rewrite IH.
Qed.

Lemma join_loop ps s :
  for_each ps join_child s =
    (Returned tt, set_world (join_all ps (world s)) s, join_events ps).
Proof.
  revert s. induction ps as [|p ps IH]; intros s; simpl.
  - by rewrite set_world_id.
  - unfold bind, join_child. unfold_monad_all. by rewrite IH.
Qed.

(** The children step of the exit function. *)
Lemma shutdown_children_spec s :
  shutdown_children s =
    match current_process (world s) with
    | None => (Returned tt, s, [])
    | Some _ =>
        let '(ps1, w1) := active_children (world s) in
        let '(ps2, w2) := active_children (terminate_all ps1 w1) in
        (Returned tt, set_world (join_all ps2 w2) s,
         terminate_events ps1 ++ join_events ps2)
    end.
Proof.
  unfold shutdown_children. unfold mbind, M_bind, bind, get.
  destruct (current_process (world s)) as [cp|]; [|done].
  unfold get_active_children.
  destruct (active_children (world s)) as [ps1 w1].
  rewrite terminate_loop. simpl.
  destruct (active_children (terminate_all ps1 w1)) as [ps2 w2].
  rewrite join_loop. simpl. by rewrite ?app_nil_r.
Qed.

Lemma exit_function_when_exiting s :
  not_exiting s = false → _exit_function s = (Returned tt, s, []).
Proof.
  intros Hne. unfold _exit_function. unfold mbind, M_bind, bind, get.
  by rewrite Hne.
Qed.

(** The course of the exit function when the flag is not yet set. *)
Lemma exit_function_first s :
  not_exiting s = true →
  _exit_function s =
    let pre := [EvLog INFO process_shutting_down;
                EvLog DEBUG running_all_atexit_finalizers_with_priority_ge_0] in
    match _run_finalizers (Some 0) (set_exiting (Some true) s) with
    | (Propagated e, s1, t1) => (Propagated e, s1, pre ++ t1)
    | (Returned _, s1, t1) =>
        match shutdown_children s1 with
        | (Propagated e, s2, t2) => (Propagated e, s2, pre ++ t1 ++ t2)
        | (Returned _, s2, t2) =>
            let '(r3, s3, t3) := _run_finalizers None s2 in
            (r3, s3,
             pre ++ t1 ++ t2 ++
             [EvLog DEBUG running_the_remaining_atexit_finalizers] ++ t3)
        end
    end.
Proof.
  intros Hne. unfold _exit_function.
  unfold mbind, M_bind, bind, get, modify, info, debug, emit.
  rewrite Hne.
  destruct (_run_finalizers (Some 0) _) as [[[[]|e] s1] t1]; [|done].
  destruct (shutdown_children s1) as [[[[]|e] s2] t2]; [|done].
  by destruct (_run_finalizers None s2) as [[r3 s3] t3].
Qed.

(** What one call of the exit function does to the flag and how often it
    enters the exit sequence. *)
Lemma exit_function_flag s r s' t :
  _exit_function s = (r, s', t) →
  if not_exiting s
  then _exiting s' = Some true ∧ shutdowns_started t = 1%nat
  else s' = s ∧ t = [] ∧ r = Returned tt.
Proof.
  intros Heq. destruct (not_exiting s) eqn:Hne.
  - rewrite (exit_function_first s Hne) in Heq. simpl in Heq.
    destruct (_run_finalizers (Some 0) _) as [[r1 s1] t1] eqn:H1.
    destruct (calm_run_finalizers _ _ _ _ _ H1) as [He1 Ht1]. simpl in He1.
    destruct r1 as [[]|e]; cycle 1.
    { simplify_eq. split; [done|]. 
      change (shutdowns_started
        ([EvLog INFO process_shutting_down;
          EvLog DEBUG running_all_atexit_finalizers_with_priority_ge_0] ++ t1)
        = 1%nat).
      rewrite shutdowns_started_app, Ht1. done. }
    destruct (shutdown_children s1) as [[r2 s2] t2] eqn:H2.
    destruct (calm_shutdown_children _ _ _ _ H2) as [He2 Ht2].
    destruct r2 as [[]|e]; cycle 1.
    { simplify_eq. split; [congruence|].
      change (shutdowns_started
        ([EvLog INFO process_shutting_down;
          EvLog DEBUG running_all_atexit_finalizers_with_priority_ge_0]
         ++ t1 ++ t2) = 1%nat).
      rewrite !shutdowns_started_app, Ht1, Ht2. done. }
    destruct (_run_finalizers None s2) as [[r3 s3] t3] eqn:H3.
    destruct (calm_run_finalizers _ _ _ _ _ H3) as [He3 Ht3].
    simplify_eq. split; [congruence|].
    change (shutdowns_started
      ([EvLog INFO process_shutting_down;
        EvLog DEBUG running_all_atexit_finalizers_with_priority_ge_0]
       ++ t1 ++ t2 ++ [EvLog DEBUG running_the_remaining_atexit_finalizers]
       ++ t3) = 1%nat).
    rewrite !shutdowns_started_app, Ht1, Ht2, Ht3. done.
  - rewrite (exit_function_when_exiting s Hne) in Heq. by simplify_eq.
Qed.

Lemma not_exiting_is_exiting s : _exiting s = Some true → not_exiting s = false.
Proof. unfold not_exiting. by intros ->. Qed.

(** Once the flag is set, no operation unsets it or enters the exit
    sequence. *)
Lemma run_op_after_exit o s s' t :
  _exiting s = Some true → run_op o s = (s', t) →
  _exiting s' = Some true ∧ shutdowns_started t = 0%nat.
Proof.
  intros He Heq.
  assert (∀ A (m : M World A), keeps quiet m → attempt m s = (s', t) →
            _exiting s' = Some true ∧ shutdowns_started t = 0%nat) as Hcalm.
  { intros A m Hm Hatt. unfold attempt in Hatt.
    destruct (m s) as [[r s1] t1] eqn:Hms. simplify_eq.
    destruct (Hm _ _ _ _ Hms) as [? ?]. split; [congruence|done]. }
  destruct o; simpl in Heq.
  - eapply Hcalm; [apply calm_init|done].
  - eapply Hcalm; [apply calm_call|done].
  - eapply Hcalm; [apply calm_cancel|done].
  - eapply Hcalm; [apply calm_run_finalizers|done].
  - eapply Hcalm; [apply calm_register_after_fork|done].
  - eapply Hcalm; [apply calm_run_after_forkers|done].
  - unfold attempt in Heq.
    rewrite (exit_function_when_exiting s) in Heq
      by by apply not_exiting_is_exiting.
    by simplify_eq.
Qed.

Lemma run_ops_after_exit ops s s' t :
  _exiting s = Some true → run_ops ops s = (s', t) →
  _exiting s' = Some true ∧ shutdowns_started t = 0%nat.
Proof.
  revert s s' t. induction ops as [|o ops IH]; intros s s' t He Heq.
  - simpl in Heq. by simplify_eq.
  - simpl in Heq. destruct (run_op o s) as [s1 t1] eqn:H1.
    destruct (run_ops ops s1) as [s2 t2] eqn:H2. simplify_eq.
    destruct (run_op_after_exit _ _ _ _ He H1) as [He1 Ht1].
    destruct (IH _ _ _ He1 H2) as [He2 Ht2].
    split; [done|]. rewrite shutdowns_started_app. lia.
Qed.

(** In any sequence of operations the exit sequence is entered at most
    once. *)
Lemma run_ops_shutdown_once ops s s' t :
  run_ops ops s = (s', t) → (shutdowns_started t ≤ 1)%nat.
Proof.
  revert s s' t. induction ops as [|o ops IH]; intros s s' t Heq.
  - simpl in Heq. simplify_eq. unfold shutdowns_started. simpl. lia.
  - simpl in Heq. destruct (run_op o s) as [s1 t1] eqn:H1.
    destruct (run_ops ops s1) as [s2 t2] eqn:H2. simplify_eq.
    rewrite shutdowns_started_app.
    assert (shutdowns_started t1 = 0%nat ∨
            (shutdowns_started t1 = 1%nat ∧ _exiting s1 = Some true)) as [Ht1|[Ht1 He1]].
    { assert (∀ A (m : M World A), keeps quiet m → attempt m s = (s1, t1) →
                shutdowns_started t1 = 0%nat) as Hcalm.
      { intros A m Hm Hatt. unfold attempt in Hatt.
        destruct (m s) as [[r s0] t0] eqn:Hms. simplify_eq.
        by destruct (Hm _ _ _ _ Hms) as [? ?]. }
      destruct o; simpl in H1.
      - left. eapply Hcalm; [apply calm_init|done].
      - left. eapply Hcalm; [apply calm_call|done].
      - left. eapply Hcalm; [apply calm_cancel|done].
      - left. eapply Hcalm; [apply calm_run_finalizers|done].
      - left. eapply Hcalm; [apply calm_register_after_fork|done].
      - left. eapply Hcalm; [apply calm_run_after_forkers|done].
      - unfold attempt in H1.
        destruct (_exit_function s) as [[r s0] t0] eqn:Hexit. simplify_eq.
        pose proof (exit_function_flag _ _ _ _ Hexit) as Hflag.
        destruct (not_exiting s).
        + right. by destruct Hflag.
        + left. by destruct Hflag as (_ & -> & _). }
    + specialize (IH _ _ _ H2). lia.
    + destruct (run_ops_after_exit _ _ _ _ He1 H2) as [_ Ht2]. lia.
Qed.
End ExitFunction.

Section ExitClaims.
Context {World : Type} {env : Environment World}.
Implicit Types (s : State World) (t : list Event).

End ExitClaims.

(** * The theorems at concrete inputs *)

Section Concrete.
Import Demo.

Lemma run_ops_wf {World} {env : Environment World} ops (s : State World) :
  wf s → wf (run_ops ops s).1.
Proof.
  intros Hwf. destruct (run_ops ops s) as [s' t] eqn:Hrun.
  by destruct (run_ops_ok ops s s' t Hwf Hrun).
Qed.

Lemma wf_four_registered : wf four_registered.
Proof. apply run_ops_wf, wf_initial. Qed.

Lemma wf_one_invoked : wf one_invoked.
Proof. apply run_ops_wf, wf_four_registered. Qed.

Lemma polite_raises_only_Exception : raises_only_Exception (env := polite_env).
Proof.
  intros f args kwargs w e w'. simpl. unfold polite_call.
  destruct (f =? 7)%nat; [|done]. by intros [= <- _].
Qed.




(** The first instance, invoked in a forked child. *)
Lemma call_in_other_process_witness :
  let child := forked 101%nat four_registered in
  let fin := mkFinalize None (Some 1%nat) (Some []) (Some [])
               (Some (Some 10, 0%nat)) 100%nat in
  heap child !! 0%nat = Some fin ∧
  _pid fin ≠ os_getpid child ∧
  ∃ s' t,
    Finalize.__call__ 0%nat child = (Returned PyNone, s', t) ∧
    callbacks_called t = [] ∧
    Finalize.still_active 0%nat s' = false.
Proof.
  intros child fin.
  assert (heap child !! 0%nat = Some fin) as Hfin by reflexivity.
  assert (_pid fin ≠ os_getpid child) as Hpid by (vm_compute; lia).
  split; [exact Hfin|]. split; [exact Hpid|].
  destruct (call_in_other_process child 0%nat fin Hfin Hpid)
    as (s' & t & Hcall & Hnone & _ & Hinactive & _).
  by exists s', t.
Defined.


(** The first instance, invoked in its own process. *)
Lemma call_clears_on_return_witness :
  let fin := mkFinalize None (Some 1%nat) (Some []) (Some [])
               (Some (Some 10, 0%nat)) 100%nat in
  heap four_registered !! 0%nat = Some fin ∧
  _finalizer_registry four_registered !! (Some 10, 0%nat) = Some 0%nat ∧
  _pid fin = os_getpid four_registered ∧
  ∃ (s' : State DemoWorld) t,
    callbacks_called t = [0%nat] ∧
    _finalizer_registry s' !! (Some 10, 0%nat) = None.
Proof.
  intros fin.
  assert (heap four_registered !! 0%nat = Some fin) as Hfin by reflexivity.
  assert (_finalizer_registry four_registered !! (Some 10, 0%nat) = Some 0%nat)
    as Hreg by (by vm_compute).
  assert (_pid fin = os_getpid four_registered) as Hpid by reflexivity.
  split; [exact Hfin|]. split; [exact Hreg|]. split; [exact Hpid|].
  destruct (call_clears_on_return four_registered 0%nat fin (Some 10, 0%nat)
              0%nat 1%nat [] [] Hfin eq_refl Hreg Hpid eq_refl eq_refl eq_refl)
    as (s' & t & Hcalled & Hgone & _).
  by exists s', t.
Defined.




(** A priority given as a string. *)
Lemma non_int_priority_is_rejected_witness :
  PyStr "high" ≠ PyNone ∧
  isinstance_int (PyStr "high") = false ∧
  ∃ s',
    Finalize.__init__ (Some 1%nat) 1%nat [] None (PyStr "high") four_registered =
      (Propagated (mkExn TypeError [PyStr "high"]), s', []) ∧
    s' = four_registered.
Proof.
  assert (PyStr "high" ≠ PyNone) as Hne by done.
  split; [exact Hne|]. split; [reflexivity|].
  destruct (non_int_priority_is_rejected four_registered (Some 1%nat) 1%nat []
              None (PyStr "high") Hne eq_refl) as (s' & Hinit & Hsame & _).
  by exists s'.
Defined.

(** C6 fails as stated: the instance is registered and owned by the current
    process, its callback raises, the [ValueError] reaches the invoker and
    the key has left the registry, but [_weakref], [_callback], [_args],
    [_kwargs] and [_key] still hold their values. *)
Lemma call_raising_leaves_attributes_set :
  _finalizer_registry raising_registered !! (Some 0, 0%nat) = Some 0%nat ∧
  (_pid <$> heap raising_registered !! 0%nat) =
    Some (os_getpid raising_registered) ∧
  (Finalize.__call__ 0%nat raising_registered).1.1 =
    Propagated (mkExn ValueError [PyStr "boom"]) ∧
  let s' := (Finalize.__call__ 0%nat raising_registered).1.2 in
  _finalizer_registry s' !! (Some 0, 0%nat) = None ∧
  heap s' !! 0%nat =
    Some (mkFinalize (Some 5%nat) (Some 7%nat) (Some [PyInt 1]) (Some [])
            (Some (Some 0, 0%nat)) 100%nat).
Proof. by vm_compute. Qed.

End Concrete.

(** * Further properties of the module *)

(** ** What an invocation leaves alone *)

Section Frames.
Context {World : Type} {env : Environment World}.
Implicit Types (s : State World) (self f g : Fid) (fin : FinalizeObj) (k : Key).
Implicit Types (t : list Event).

(** In a well-formed state [still_active] tells whether the registry holds
    the instance. *)
Lemma still_active_registered s self :
  wf s →
  Finalize.still_active self s = true ↔
  ∃ k, _finalizer_registry s !! k = Some self.
Proof.
  intros Hwf. unfold Finalize.still_active. split.
  - destruct (heap s !! self) as [fin|] eqn:Hself; [|done].
    destruct (_key fin) as [k|] eqn:Hk; [|done].
    intros Hact. apply bool_decide_eq_true in Hact as [g Hg].
    destruct (wf_registered s Hwf k g Hg) as (gin & Hgin & Hgk & _).
    rewrite (wf_unique s Hwf self g fin gin k Hself Hgin Hk Hgk). by exists k.
  - intros [k Hk].
    destruct (wf_registered s Hwf k self Hk) as (fin & -> & -> & _).
    apply bool_decide_eq_true. by eexists.
Qed.

(** The key of another instance is not the key of [self]. *)
Lemma other_key_differs s self g fin gin k :
  wf s → g ≠ self → heap s !! self = Some fin → heap s !! g = Some gin →
  _key fin = Some k → _key gin ≠ Some k.
Proof.
  intros Hwf Hne Hself Hg Hk Hgk. apply Hne.
  exact (wf_unique s Hwf g self gin fin k Hg Hself Hgk Hk).
Qed.

Lemma still_active_other_removed s self g fin k w :
  wf s → g ≠ self → heap s !! self = Some fin → _key fin = Some k →
  Finalize.still_active g (set_world w (removed k s)) =
  Finalize.still_active g s.
Proof.
  intros Hwf Hne Hself Hk. unfold Finalize.still_active. simpl.
  destruct (heap s !! g) as [gin|] eqn:Hg; [|done].
  destruct (_key gin) as [k'|] eqn:Hgk; [|done].
  rewrite lookup_delete_ne; [done|]. intros ->.
  by eapply (other_key_differs s self g fin gin).
Qed.

Lemma still_active_other_cleared s self g fin :
  g ≠ self →
  Finalize.still_active g (with_cleared self fin s) =
  Finalize.still_active g s.
Proof.
  intros Hne. unfold Finalize.still_active. simpl.
  by rewrite list_lookup_insert_ne.
Qed.

(** What an invocation does to the instances other than [self]. *)
Lemma call_frame s self r s' t :
  wf s → Finalize.__call__ self s = (r, s', t) →
  (callbacks_called t = [] ∨ callbacks_called t = [self]) ∧
  finalizers_invoked t = [] ∧
  ∀ g, g ≠ self →
    heap s' !! g = heap s !! g ∧
    Finalize.still_active g s' = Finalize.still_active g s.
Proof.
  intros Hwf. revert r s' t.
  apply (call_elim s self (λ out, ∀ r s' t, out = (r, s', t) →
    (callbacks_called t = [] ∨ callbacks_called t = [self]) ∧
    finalizers_invoked t = [] ∧
    ∀ g, g ≠ self →
      heap s' !! g = heap s !! g ∧
      Finalize.still_active g s' = Finalize.still_active g s)).
  - intros Hnone r s' t [= <- <- <-]. split_and!; [by left|done|done].
  - intros Hu r s' t [= <- <- <-]. split_and!; [by left|done|done].
  - intros fin k g0 Hself Hk Hreg Hp r s' t [= <- <- <-].
    split_and!; [by left|done|]. intros g Hne. split.
    + simpl. by rewrite list_lookup_insert_ne.
    + rewrite still_active_other_cleared by done.
      by apply (still_active_other_removed s self g fin k (world s)).
  - intros fin k g0 Hself Hk Hreg Hp r s' t [= <- <- <-].
    split_and!; [by left|done|]. intros g Hne. split; [done|].
    by apply (still_active_other_removed s self g fin k (world s)).
  - intros fin k g0 cb args kwargs v w Hself Hk Hreg Hp Hcall r s' t [= <- <- <-].
    split_and!; [by right|done|]. intros g Hne. split.
    + simpl. by rewrite list_lookup_insert_ne.
    + rewrite still_active_other_cleared by done.
      by apply (still_active_other_removed s self g fin k w).
  - intros fin k g0 cb args kwargs e w Hself Hk Hreg Hp Hcall r s' t [= <- <- <-].
    split_and!; [by right|done|]. intros g Hne. split; [done|].
    by apply (still_active_other_removed s self g fin k w).
Qed.
End Frames.

Section FinalizeExtras.
Context {World : Type} {env : Environment World}.
Implicit Types (s : State World) (self f g : Fid) (fin : FinalizeObj) (k : Key).
Implicit Types (t : list Event).

(** X1.  Whatever operations have run since the module was imported, the
    state is well formed, and [still_active] is accurate: it answers true
    exactly for the instances the registry holds. *)
Theorem reachable_states_are_well_formed pid (w : World) ops :
  let s := (run_ops ops (initial pid w)).1 in
  wf s ∧
  ∀ self, Finalize.still_active self s = true ↔
          ∃ k, _finalizer_registry s !! k = Some self.
Proof.
  intros s.
  assert (wf s) as Hwf.
  { unfold s. destruct (run_ops ops (initial pid w)) as [s' t] eqn:Hrun.
    by destruct (run_ops_ok ops _ s' t (wf_initial pid w) Hrun). }
  split; [done|]. intros self. by apply still_active_registered.
Qed.

(** X2.  Invoking an instance calls no callback but its own and leaves
    every other instance as it was: same attributes, same registration. *)
Theorem invocation_leaves_other_instances s self r s' t :
  wf s → Finalize.__call__ self s = (r, s', t) →
  (∀ f, f ∈ callbacks_called t → f = self) ∧
  ∀ g, g ≠ self →
    heap s' !! g = heap s !! g ∧
    Finalize.still_active g s' = Finalize.still_active g s.
Proof.
  intros Hwf Heq. destruct (call_frame s self r s' t Hwf Heq) as (Hcb & _ & Hfr).
  split; [|done]. intros f Hf. destruct Hcb as [Hcb|Hcb]; rewrite Hcb in Hf.
  - by apply elem_of_nil in Hf.
  - by apply list_elem_of_singleton in Hf.
Qed.


End FinalizeExtras.

(** ** What a batch run leaves alone *)

Section BatchFrames.
Context {World : Type} {env : Environment World}.
Implicit Types (s : State World) (self f g : Fid) (fin : FinalizeObj) (k : Key).
Implicit Types (t : list Event) (minpriority : option Z).

Lemma elem_of_finalizers_at keys s f :
  f ∈ finalizers_at keys s ↔
  ∃ k, k ∈ keys ∧ _finalizer_registry s !! k = Some f.
Proof.
  unfold finalizers_at. rewrite list_elem_of_omap. naive_solver.
Qed.

Lemma finalizers_at_ext keys s s' :
  (∀ k, k ∈ keys → _finalizer_registry s' !! k = _finalizer_registry s !! k) →
  finalizers_at keys s' = finalizers_at keys s.
Proof.
  unfold finalizers_at. induction keys as [|k keys IH]; intros Hext; [done|].
  csimpl. rewrite (Hext k) by left. rewrite IH; [done|].
  intros k' Hk'. apply Hext. by right.
Qed.

(** One turn of the batch loop, seen from the other instances. *)
Lemma run_finalizer_frame s k f r s' t :
  wf s → _finalizer_registry s !! k = Some f →
  run_finalizer k s = (r, s', t) →
  (∀ f', f' ∈ callbacks_called t → f' = f) ∧
  ∀ g, g ≠ f → heap s' !! g = heap s !! g.
Proof.
  intros Hwf Hreg Heq. unfold run_finalizer in Heq. unfold_monad_all.
  rewrite Hreg in Heq.
  destruct (Finalize.__call__ f s) as [[r1 s1] t1] eqn:Hcall.
  destruct (call_frame s f r1 s1 t1 Hwf Hcall) as (Hcb & _ & Hfr).
  assert (callbacks_called t = callbacks_called t1 ∧ s' = s1) as [Ht ->].
  { destruct r1 as [v|e]; simpl in Heq.
    - simplify_eq. by rewrite !app_nil_r.
    - destruct (is_Exception e); simplify_eq; simpl; [|done].
      rewrite callbacks_called_app. simpl. by rewrite app_nil_r. }
  split.
  - intros f' Hf'. rewrite Ht in Hf'. destruct Hcb as [Hcb|Hcb]; rewrite Hcb in Hf'.
    + by apply elem_of_nil in Hf'.
    + by apply list_elem_of_singleton in Hf'.
  - intros g Hne. by destruct (Hfr g Hne).
Qed.

(** The batch loop, seen from the keys and instances it does not work on. *)
Lemma run_finalizers_loop_frame keys s r s' t :
  wf s → NoDup keys →
  (∀ k, k ∈ keys → is_Some (_finalizer_registry s !! k)) →
  for_each keys run_finalizer s = (r, s', t) →
  (∀ k, k ∉ keys → _finalizer_registry s' !! k = _finalizer_registry s !! k) ∧
  (r = Returned tt → ∀ k, k ∈ keys → _finalizer_registry s' !! k = None) ∧
  (∀ g, g ∉ finalizers_at keys s → heap s' !! g = heap s !! g) ∧
  (∀ f, f ∈ callbacks_called t → f ∈ finalizers_at keys s).
Proof.
  revert s r s' t. induction keys as [|k keys IH]; intros s r s' t Hwf Hnd Hreg Heq.
  - simpl in Heq. unfold ret in Heq. simplify_eq. split_and!.
    + done.
    + intros _ k Hk. by apply elem_of_nil in Hk.
    + done.
    + intros f Hf. by apply elem_of_nil in Hf.
  - apply NoDup_cons in Hnd as [Hnin Hnd].
    destruct (Hreg k) as [f Hf]; [left|].
    simpl in Heq. unfold bind in Heq.
    destruct (run_finalizer k s) as [[r1 s1] t1] eqn:Hstep.
    destruct (run_finalizer_registered s k f r1 s1 t1 Hwf Hf Hstep)
      as (Hwf1 & Hr1 & _).
    destruct (run_finalizer_frame s k f r1 s1 t1 Hwf Hf Hstep) as (Hcb1 & Hh1).
    assert (finalizers_at (k :: keys) s = f :: finalizers_at keys s1) as Hat.
    { unfold finalizers_at at 1. simpl. rewrite Hf. f_equal.
      symmetry. by eapply finalizers_at_delete. }
    rewrite Hat.
    destruct r1 as [[]|e].
    + destruct (for_each keys run_finalizer s1) as [[r2 s2] t2] eqn:Hrest.
      simplify_eq.
      destruct (IH s1 r s' t2 Hwf1 Hnd) as (Hout & Hin & Hheap & Hcb2); [|done|].
      { intros k' Hk'. rewrite Hr1, lookup_delete_ne; [apply Hreg; by right|].
        by intros ->. }
      split_and!.
      * intros k' Hk'. apply not_elem_of_cons in Hk' as [Hne Hk'].
        rewrite (Hout k' Hk'), Hr1. by apply lookup_delete_ne.
      * intros Hret k' Hk'. apply elem_of_cons in Hk' as [->|Hk'].
        -- rewrite (Hout k Hnin), Hr1. apply lookup_delete_eq.
        -- by apply Hin.
      * intros g Hg. apply not_elem_of_cons in Hg as [Hne Hg].
        rewrite (Hheap g Hg). by apply Hh1.
      * intros f' Hf'. rewrite callbacks_called_app in Hf'.
        apply elem_of_app in Hf' as [Hf'|Hf'].
        -- rewrite (Hcb1 f' Hf'). left.
        -- right. by apply Hcb2.
    + simplify_eq. split_and!.
      * intros k' Hk'. apply not_elem_of_cons in Hk' as [Hne Hk'].
        rewrite Hr1. by apply lookup_delete_ne.
      * done.
      * intros g Hg. apply not_elem_of_cons in Hg as [Hne Hg]. by apply Hh1.
      * intros f' Hf'. rewrite (Hcb1 f' Hf'). left.
Qed.

(** An instance registered under a key that is not selected is none of the
    selected instances. *)
Lemma unselected_not_among_selected minpriority s k f :
  wf s → _finalizer_registry s !! k = Some f →
  selects minpriority k = false →
  f ∉ finalizers_at (selected_keys minpriority s) s.
Proof.
  intros Hwf Hreg Hsel Hin. apply elem_of_finalizers_at in Hin as (k' & Hk' & Hreg').
  apply elem_of_selected_keys in Hk' as [_ Hsel'].
  destruct (wf_registered s Hwf k f Hreg) as (fin & Hfin & Hk & _).
  destruct (wf_registered s Hwf k' f Hreg') as (fin' & Hfin' & Hk'' & _).
  simplify_eq. congruence.
Qed.

(** What the loop of a batch run does in a live, well-formed module. *)
Lemma batch_loop_frame minpriority s r s' t :
  wf s →
  for_each (selected_keys minpriority s) run_finalizer s = (r, s', t) →
  (∀ k, selects minpriority k = false →
        _finalizer_registry s' !! k = _finalizer_registry s !! k) ∧
  (r = Returned tt → ∀ k, selects minpriority k = true →
        _finalizer_registry s' !! k = None) ∧
  (∀ k f, _finalizer_registry s !! k = Some f →
          selects minpriority k = false →
          heap s' !! f = heap s !! f ∧ f ∉ callbacks_called t).
Proof.
  intros Hwf Hloop.
  destruct (run_finalizers_loop_frame _ s r s' t Hwf
              (selected_keys_NoDup minpriority s)) as (Hout & Hin & Hheap & Hcb);
    [|done|].
  { intros k Hk. by apply elem_of_selected_keys in Hk as [? _]. }
  split_and!.
  - intros k Hsel. apply Hout. intros Hk.
    apply elem_of_selected_keys in Hk as [_ ?]. congruence.
  - intros Hret k Hsel.
    destruct (_finalizer_registry s !! k) as [f|] eqn:Hreg.
    + apply Hin; [done|]. apply elem_of_selected_keys. split; [by eexists|done].
    + rewrite <- Hreg. apply Hout. intros Hk.
      apply elem_of_selected_keys in Hk as [[? ?] _]. congruence.
  - intros k f Hreg Hsel.
    pose proof (unselected_not_among_selected minpriority s k f Hwf Hreg Hsel)
      as Hnot.
    split; [by apply Hheap|]. intros Hf. by apply Hnot, Hcb.
Qed.

(** X5.  A batch run with a threshold that returns has removed exactly the
    selected keys from the registry.  An instance registered under another
    key (a lower priority, or none) was not called, keeps its attributes
    and is still registered. *)
Theorem threshold_run_keeps_the_rest s m s' t :
  wf s → finalizer_registry_bound s = true →
  _run_finalizers (Some m) s = (Returned tt, s', t) →
  (∀ k, _finalizer_registry s' !! k =
        if selects (Some m) k then None else _finalizer_registry s !! k) ∧
  (∀ k f, _finalizer_registry s !! k = Some f → selects (Some m) k = false →
     (f ∉ callbacks_called t) ∧
     heap s' !! f = heap s !! f ∧
     Finalize.still_active f s' = true).
Proof.
  intros Hwf Hb Heq. rewrite (run_finalizers_bound _ _ Hb) in Heq.
  destruct (for_each (selected_keys (Some m) s) run_finalizer s)
    as [[[[]|e] s1] t1] eqn:Hloop; [|done]. simplify_eq.
  destruct (batch_loop_frame (Some m) s _ s' t Hwf Hloop) as (Hout & Hin & Hfr).
  split.
  - intros k. destruct (selects (Some m) k) eqn:Hsel; [by apply Hin|by apply Hout].
  - intros k f Hreg Hsel. destruct (Hfr k f Hreg Hsel) as [Hheap Hcb].
    split_and!; [done..|].
    destruct (wf_registered s Hwf k f Hreg) as (fin & Hfin & Hk & _).
    unfold Finalize.still_active. rewrite Hheap, Hfin, Hk, (Hout k Hsel), Hreg.
    apply bool_decide_eq_true. by eexists.
Qed.

(** X6.  A full run never invokes an instance registered without a
    priority, and leaves its attributes as they are.  When the run returns
    the instance is out of the registry all the same: invoking it later
    (as the collector would, once the owner is gone) returns [None] and
    calls nothing. *)
Theorem full_run_drops_unprioritised s n f r s' t :
  wf s → finalizer_registry_bound s = true →
  _finalizer_registry s !! (None, n) = Some f →
  _run_finalizers None s = (r, s', t) →
  (f ∉ finalizers_invoked t) ∧
  (f ∉ callbacks_called t) ∧
  heap s' !! f = heap s !! f ∧
  (r = Returned tt →
   Finalize.still_active f s' = false ∧
   Finalize.__call__ f s' =
     (Returned PyNone, s', [EvLog SUBDEBUG finalizer_no_longer_registered])).
Proof.
  intros Hwf Hb Hreg Heq.
  assert (selects None (None, n) = false) as Hsel by done.
  pose proof (unselected_not_among_selected None s _ f Hwf Hreg Hsel) as Hnot.
  destruct (batch_run_in_order s None r s' t Hwf Hb Heq) as (Hpre & _).
  rewrite (run_finalizers_bound _ _ Hb) in Heq.
  destruct (for_each (selected_keys None s) run_finalizer s)
    as [[r1 s1] t1] eqn:Hloop.
  destruct (batch_loop_frame None s r1 s1 t1 Hwf Hloop) as (_ & _ & Hfr).
  destruct (Hfr _ f Hreg Hsel) as [Hheap Hcb].
  destruct (wf_registered s Hwf _ f Hreg) as (fin & Hfin & Hk & _).
  assert (f ∉ finalizers_invoked t) as Hinv.
  { intros Hin. apply Hnot. destruct Hpre as [rest ->].
    apply elem_of_app. by left. }
  destruct r1 as [[]|e]; simplify_eq; split_and!; try done.
  intros _.
  assert (unregistered f (set_finalizer_registry ∅ s1)) as Hu.
  { exists fin. split; [by rewrite <- Hfin|]. intros k _. apply lookup_empty. }
  split; [|by apply call_of_unregistered].
  by apply unregistered_still_active in Hu as [_ ?].
Qed.
End BatchFrames.

(** ** The two phases of the exit function *)

Section ExitPhases.
Context {World : Type} {env : Environment World}.
Implicit Types (s : State World) (k : Key) (t : list Event).

Lemma wf_set_exiting s b : wf s → wf (set_exiting b s).
Proof. intros [H1 H2 H3 H4]. by split. Qed.

Lemma strongly_sorted_filter {A} (R : A → A → Prop) (p : A → bool) (l : list A) :
  StronglySorted R l → StronglySorted R (List.filter p l).
Proof.
  induction 1 as [|h t Hs IH Hall]; simpl; [constructor|].
  destruct (p h); [|done]. constructor; [done|].
  rewrite Forall_forall in Hall |- *. intros x Hx. apply Hall.
  apply list_elem_of_In in Hx. apply filter_In in Hx as [Hx _].
  by apply list_elem_of_In.
Qed.

Lemma key_gt_asym (a b : Key) : key_gt a b → key_gt b a → False.
Proof.
  intros (p & q & Ha & Hb & Hpq) (p' & q' & Hb' & Ha' & Hqp).
  rewrite Ha in Ha'. rewrite Hb in Hb'. simplify_eq. lia.
Qed.

Lemma elem_of_second_phase_keys s k :
  k ∈ second_phase_keys s ↔
  is_Some (_finalizer_registry s !! k) ∧ ∃ p, k.1 = Some p ∧ p < 0.
Proof.
  unfold second_phase_keys.
  rewrite list_elem_of_In, filter_In, <- list_elem_of_In.
  rewrite elem_of_selected_keys.
  destruct k as [[p|] n]; unfold selects; simpl.
  - rewrite negb_true_iff, Z.leb_gt. split.
    + intros [[Hreg _] Hlt]. split; [done|]. by exists p.
    + intros [Hreg (? & [= <-] & Hlt)]. split; [|done]. split; [done|].
      first [done | by apply bool_decide_eq_true].
  - split.
    + intros [[_ Hsel] _].
      first [done | by apply bool_decide_eq_true in Hsel].
    + by intros [_ (? & ? & _)].
Qed.

(** The keys a full run selects once the run with threshold 0 is over. *)
Lemma selected_keys_after_first_phase s s2 :
  (∀ k, _finalizer_registry s2 !! k =
        if selects (Some 0) k then None else _finalizer_registry s !! k) →
  selected_keys None s2 = second_phase_keys s.
Proof.
  intros Hreg. apply (strictly_sorted_unique key_gt).
  - apply key_gt_asym.
  - apply selected_keys_sorted.
  - apply strongly_sorted_filter, selected_keys_sorted.
  - apply NoDup_Permutation.
    + apply selected_keys_NoDup.
    + apply NoDup_ListNoDup, List.NoDup_filter, NoDup_ListNoDup.
      apply selected_keys_NoDup.
    + intros k. rewrite elem_of_selected_keys, Hreg. unfold second_phase_keys.
      rewrite list_elem_of_In, filter_In, <- list_elem_of_In.
      rewrite elem_of_selected_keys.
      destruct (selects (Some 0) k) eqn:Hsel; simpl.
      * split; [by intros [[? ?] _]|by intros [_ ?]].
      * split; [by intros [? ?]|by intros [[? ?] _]].
Qed.

Lemma children_events_call_nothing ps1 ps2 :
  callbacks_called (terminate_events ps1 ++ join_events ps2) = [] ∧
  finalizers_invoked (terminate_events ps1 ++ join_events ps2) = [].
Proof.
  rewrite callbacks_called_app, finalizers_invoked_app.
  assert (callbacks_called (terminate_events ps1) = [] ∧
          finalizers_invoked (terminate_events ps1) = []) as [-> ->].
  { induction ps1 as [|p ps IH]; [done|]. simpl.
    rewrite callbacks_called_app, finalizers_invoked_app.
    destruct IH as [-> ->]. by destruct (daemon p). }
  assert (callbacks_called (join_events ps2) = [] ∧
          finalizers_invoked (join_events ps2) = []) as [-> ->]; [|done].
  induction ps2 as [|p ps IH]; [done|]. simpl. by destruct IH as [-> ->].
Qed.

(** The children step changes nothing but the outside world. *)
Lemma shutdown_children_frame s r s' t :
  shutdown_children s = (r, s', t) →
  r = Returned tt ∧
  (∃ w, s' = set_world w s) ∧
  callbacks_called t = [] ∧ finalizers_invoked t = [].
Proof.
  rewrite shutdown_children_spec.
  destruct (current_process (world s)) as [cp|].
  - destruct (active_children (world s)) as [ps1 w1].
    destruct (active_children (terminate_all ps1 w1)) as [ps2 w2].
    intros [= <- <- <-]. split; [done|]. split; [by eexists|].
    apply children_events_call_nothing.
  - intros [= <- <- <-]. split; [done|]. split; [|done].
    exists (world s). by rewrite set_world_id.
Qed.

(** X7.  A call of the exit function that runs the sequence in a live,
    well-formed module and returns has invoked, before the children step,
    the instances of priority at least 0, highest priority first, and after
    the children step the instances of negative priority, highest first;
    the children step itself calls no callback.  Nothing is registered
    afterwards. *)
Theorem exit_function_phases s s' t :
  wf s → finalizer_registry_bound s = true → not_exiting s = true →
  _exit_function s = (Returned tt, s', t) →
  ∃ t1 t2 t3,
    t = [EvLog INFO process_shutting_down;
         EvLog DEBUG running_all_atexit_finalizers_with_priority_ge_0] ++
        t1 ++ t2 ++
        [EvLog DEBUG running_the_remaining_atexit_finalizers] ++ t3 ∧
    finalizers_invoked t1 = finalizers_at (selected_keys (Some 0) s) s ∧
    callbacks_called t2 = [] ∧
    finalizers_invoked t2 = [] ∧
    finalizers_invoked t3 = finalizers_at (second_phase_keys s) s ∧
    (∀ k, k ∈ second_phase_keys s ↔
       is_Some (_finalizer_registry s !! k) ∧ ∃ p, k.1 = Some p ∧ p < 0) ∧
    StronglySorted key_gt (second_phase_keys s) ∧
    _finalizer_registry s' = ∅.
Proof.
  intros Hwf Hb Hne Heq. rewrite (exit_function_first s Hne) in Heq.
  simpl in Heq. set (s0 := set_exiting (Some true) s) in *.
  assert (wf s0) as Hwf0 by (by apply wf_set_exiting).
  assert (finalizer_registry_bound s0 = true) as Hb0 by exact Hb.
  destruct (_run_finalizers (Some 0) s0) as [[r1 s1] t1] eqn:H1.
  destruct r1 as [[]|e]; [|done].
  destruct (batch_run_in_order s0 (Some 0) _ s1 t1 Hwf0 Hb0 H1) as (_ & Hinv1 & _).
  pose proof H1 as H1'. rewrite (run_finalizers_bound _ _ Hb0) in H1'.
  destruct (for_each (selected_keys (Some 0) s0) run_finalizer s0)
    as [[[[]|e] s1'] t1'] eqn:Hloop1; [|done]. simplify_eq.
  destruct (run_finalizers_loop _ s0 (Returned tt) s1 t1 Hwf0
              (selected_keys_NoDup (Some 0) s0)) as (Hwf1 & Hb1 & _); [|done|].
  { intros k Hk. by apply elem_of_selected_keys in Hk as [? _]. }
  destruct (batch_loop_frame (Some 0) s0 (Returned tt) s1 t1 Hwf0 Hloop1)
    as (Hout & Hin & _).
  destruct (shutdown_children s1) as [[r2 s2] t2] eqn:H2.
  destruct (shutdown_children_frame s1 r2 s2 t2 H2) as (-> & [w ->] & Hcb2 & Hinv2).
  destruct (_run_finalizers None (set_world w s1)) as [[r3 s3] t3] eqn:H3.
  simplify_eq.
  assert (∀ k, _finalizer_registry (set_world w s1) !! k =
               if selects (Some 0) k then None else _finalizer_registry s !! k)
    as Hreg2.
  { intros k.
    change (_finalizer_registry (set_world w s1)) with (_finalizer_registry s1).
    destruct (selects (Some 0) k) eqn:Hsel.
    - by apply (Hin eq_refl).
    - by apply (Hout k Hsel). }
  assert (finalizer_registry_bound (set_world w s1) = true) as Hb2.
  { simpl. by rewrite Hb1. }
  destruct (batch_run_in_order (set_world w s1) None _ s' t3
              (wf_set_world s1 w Hwf1) Hb2 H3) as (_ & Hinv3 & _).
  exists t1, t2, t3. split_and!.
  - done.
  - by apply (Hinv1 eq_refl).
  - done.
  - done.
  - rewrite (Hinv3 eq_refl), (selected_keys_after_first_phase s _ Hreg2).
    apply finalizers_at_ext. intros k Hk. rewrite Hreg2.
    unfold second_phase_keys in Hk. apply list_elem_of_In, filter_In in Hk as [_ Hsel].
    apply negb_true_iff in Hsel. by rewrite Hsel.
  - apply elem_of_second_phase_keys.
  - apply strongly_sorted_filter, selected_keys_sorted.
  - rewrite (run_finalizers_bound _ _ Hb2) in H3.
    destruct (for_each _ _ (set_world w s1)) as [[[[]|e] s4] t4]; [|done].
    by simplify_eq.
Qed.
End ExitPhases.

(** ** The after-fork run and the exit function in a module torn down *)

Section MoreRunners.
Context {World : Type} {env : Environment World}.
Implicit Types (s : State World) (t : list Event).

Lemma only_world_refl s : only_world s s [].
Proof. split; [|done]. exists (world s). by rewrite set_world_id. Qed.

Lemma only_world_trans s s1 s2 t1 t2 :
  only_world s s1 t1 → only_world s1 s2 t2 → only_world s s2 (t1 ++ t2).
Proof.
  intros ([w1 ->] & Hc1 & Hi1) ([w2 ->] & Hc2 & Hi2). split; [by exists w2|].
  rewrite callbacks_called_app, finalizers_invoked_app, Hc1, Hc2, Hi1, Hi2.
  done.
Qed.

Lemma only_world_run_after_forkers :
  keeps only_world (_run_after_forkers (World:=World)).
Proof.
  unfold _run_after_forkers.
  apply keeps_bind; [apply only_world_trans| |].
  { apply keeps_get, only_world_refl. }
  intros s. apply keeps_for_each; [apply only_world_refl|apply only_world_trans|].
  intros [[[index ident] func] obj]. simpl.
  apply keeps_try_except; [apply only_world_refl|apply only_world_trans| |].
  - apply keeps_bind; [apply only_world_trans| |].
    { intros s0 r s' t Heq. unfold emit in Heq. simplify_eq.
      apply only_world_refl. }
    intros _. apply keeps_bind; [apply only_world_trans| |].
    { intros s0 r s' t Heq. unfold call_function in Heq.
      destruct (call func [PyObj obj] [] (world s0)) as [r' w]. simplify_eq.
      split; [by exists w|done]. }
    intros _. apply keeps_ret, only_world_refl.
  - intros e s0 r s' t Heq. unfold info, emit in Heq. simplify_eq.
    apply only_world_refl.
Qed.

(** X8.  The after-fork run changes nothing of the module: it removes no
    after-fork entry, so that the same entries run again at the next fork,
    and it touches neither the finalizer registry nor any instance; it
    invokes no finalizer.  Only the outside world changes. *)
Theorem after_fork_run_consumes_nothing s r s' t :
  _run_after_forkers s = (r, s', t) →
  (∃ w, s' = set_world w s) ∧
  _afterfork_registry s' = _afterfork_registry s ∧
  after_fork_items s' = after_fork_items s ∧
  _finalizer_registry s' = _finalizer_registry s ∧
  heap s' = heap s ∧
  callbacks_called t = [] ∧
  finalizers_invoked t = [].
Proof.
  intros Heq.
  destruct (only_world_run_after_forkers s r s' t Heq) as ([w ->] & Hc & Hi).
  split_and!; try done. by exists w.
Qed.

(** X9.  After interpreter teardown ([_exiting] and [_finalizer_registry]
    rebound to [None], no current process) [is_exiting] answers true, yet a
    call of the exit function still takes the branch: it sets the flag and
    logs, both batch runs return at once, the children step is skipped, and
    nothing is invoked or removed. *)
Theorem exit_function_after_teardown s :
  _exiting s = None → finalizer_registry_bound s = false →
  current_process (world s) = None →
  is_exiting s = true ∧
  _exit_function s =
    (Returned tt, set_exiting (Some true) s,
     [EvLog INFO process_shutting_down;
      EvLog DEBUG running_all_atexit_finalizers_with_priority_ge_0;
      EvLog DEBUG running_the_remaining_atexit_finalizers]) ∧
  _finalizer_registry (set_exiting (Some true) s) = _finalizer_registry s.
Proof.
  intros He Hb Hcp. split; [unfold is_exiting; by rewrite He|]. split; [|done].
  rewrite exit_function_first by (unfold not_exiting; by rewrite He).
  simpl. rewrite (run_finalizers_unbound (Some 0)) by done.
  rewrite shutdown_children_spec. simpl. rewrite Hcp.
  by rewrite (run_finalizers_unbound None) by done.
Qed.
End MoreRunners.

(** ** close_all_fds_except *)

Section CloseFds.
Implicit Types (l fds : list Z) (x fd a b m : Z).

Lemma strongly_sorted_impl {A} (R1 R2 : A → A → Prop) (us : list A) :
  (∀ u v, R1 u v → R2 u v) → StronglySorted R1 us → StronglySorted R2 us.
Proof.
  intros Himpl. induction 1 as [|h t Hs IH Hall]; constructor; [done|].
  eapply Forall_impl; [exact Hall|]. intros v. apply Himpl.
Qed.

Lemma sort_Z_sorted l : StronglySorted Z.le (sort Z.ltb l).
Proof.
  apply (strongly_sorted_impl (may_precede Z.ltb)).
  - unfold may_precede. intros a b Hab. by apply Z.ltb_ge in Hab.
  - apply sort_by_sorted.
    + intros a b Hab. apply Z.ltb_lt in Hab. apply Z.ltb_ge. lia.
    + unfold may_precede. intros a b c Hab Hbc.
      apply Z.ltb_ge in Hab, Hbc. apply Z.ltb_ge. lia.
Qed.

Lemma sort_Z_perm l : sort Z.ltb l ≡ₚ l.
Proof. apply sort_by_perm. Qed.

(** The last element of a sorted list is its greatest. *)
Lemma last_of_sorted l m :
  StronglySorted Z.le l → last l = Some m → m ∈ l ∧ ∀ x, x ∈ l → x ≤ m.
Proof.
  induction 1 as [|h t Hs IH Hall]; [done|]. intros Hlast.
  destruct t as [|h' t'].
  - simpl in Hlast. simplify_eq. split; [left|].
    intros x Hx. apply list_elem_of_singleton in Hx. lia.
  - rewrite last_cons_cons in Hlast. destruct (IH Hlast) as [Hm Hmax].
    split; [by right|]. intros x Hx. apply elem_of_cons in Hx as [->|Hx].
    + rewrite Forall_forall in Hall. by apply Hall.
    + by apply Hmax.
Qed.

Lemma last_of_sorted_is m l :
  StronglySorted Z.le l → m ∈ l → (∀ x, x ∈ l → x ≤ m) → last l = Some m.
Proof.
  intros Hs Hm Hmax. destruct (last l) as [m'|] eqn:Hlast.
  - destruct (last_of_sorted l m' Hs Hlast) as [Hm' Hmax'].
    f_equal. specialize (Hmax m' Hm'). specialize (Hmax' m Hm). lia.
  - apply last_None in Hlast. subst. by apply elem_of_nil in Hm.
Qed.

(** What the ranges between neighbours of a sorted list cover: the integers
    that lie between two of its elements without being one. *)
Lemma closed_by_closeranges l x :
  StronglySorted Z.le l →
  closed_by (closeranges l) x ↔
  (x ∉ l) ∧ ∃ a b, a ∈ l ∧ b ∈ l ∧ a < x < b.
Proof.
  induction 1 as [|a t Hs IH Hall].
  { split; [by intros (c & Hc & _); apply elem_of_nil in Hc|].
    by intros (_ & a & b & Ha & _); apply elem_of_nil in Ha. }
  destruct t as [|b t'].
  { split; [by intros (c & Hc & _); apply elem_of_nil in Hc|].
    intros (_ & a' & b' & Ha & Hb & Hlt).
    apply list_elem_of_singleton in Ha, Hb. lia. }
  rewrite Forall_forall in Hall.
  assert (a ≤ b) as Hab by (apply Hall; left).
  assert (∀ y, y ∈ b :: t' → b ≤ y) as Hb_least.
  { intros y Hy. apply elem_of_cons in Hy as [->|Hy]; [lia|].
    apply StronglySorted_inv in Hs as [_ Hall']. rewrite Forall_forall in Hall'.
    by apply Hall'. }
  change (closeranges (a :: b :: t')) with ((a + 1, b) :: closeranges (b :: t')).
  split.
  - intros (c & Hc & Hin). apply elem_of_cons in Hc as [->|Hc].
    + simpl in Hin. split.
      * intros Hx. apply elem_of_cons in Hx as [->|Hx]; [lia|].
        specialize (Hb_least x Hx). lia.
      * exists a, b. split; [left|]. split; [right; left|lia].
    + destruct (proj1 IH) as (Hnin & a' & b' & Ha' & Hb' & Hlt); [by exists c|].
      split.
      * intros Hx. apply elem_of_cons in Hx as [->|Hx]; [|done].
        specialize (Hb_least a' Ha'). lia.
      * exists a', b'. split; [by right|]. split; [by right|done].
  - intros (Hnin & a' & b' & Ha' & Hb' & Hlt).
    apply not_elem_of_cons in Hnin as [Hxa Hnin].
    destruct (decide (x < b)) as [Hxb|Hxb].
    + exists (a + 1, b). split; [left|]. simpl.
      apply elem_of_cons in Ha' as [->|Ha']; [lia|].
      specialize (Hb_least a' Ha'). lia.
    + destruct (proj2 IH) as (c & Hc & Hin).
      * split; [done|]. exists b, b'. split; [left|]. split.
        -- apply elem_of_cons in Hb' as [->|Hb']; [lia|done].
        -- assert (x ≠ b) by (intros ->; apply Hnin; left). lia.
      * exists c. split; [by right|done].
Qed.

End CloseFds.

(** ** Socket addresses and temporary directories *)

Section Addresses.

Lemma ascii_is_zero_as_byte c :
  Ascii.eqb c Ascii.zero = Byte.eqb (Ascii.byte_of_ascii c) Byte.x00.
Proof.
  destruct (Ascii.eqb_spec c Ascii.zero) as [->|Hne]; [reflexivity|].
  destruct (Byte.eqb _ _) eqn:E; [|done].
  apply Byte.byte_dec_bl in E. exfalso. apply Hne.
  by rewrite <- (Ascii.ascii_of_byte_of_ascii c), E.
Qed.

(** X11.  [is_abstract_socket_namespace] never raises on [bytes] or [str]:
    the answer is whether the address starts with a NUL, and a [str] gets
    the answer of its bytes.  Of the other objects the false ones give
    [False] and the true ones raise [TypeError]. *)
Theorem abstract_socket_namespace_by_first_unit :
  (∀ b, ∃ v, is_abstract_socket_namespace (AddrBytes b) = Returned v ∧
        (v = true ↔ head b = Some Byte.x00)) ∧
  (∀ s, is_abstract_socket_namespace (AddrStr s) =
        is_abstract_socket_namespace
          (AddrBytes (String.list_byte_of_string s))) ∧
  (∀ truth, is_abstract_socket_namespace (AddrOther truth) =
        if truth then Propagated (mkExn TypeError []) else Returned false).
Proof.
  split; [|split].
  - intros [|x b]; [by exists false|]. exists (Byte.eqb x Byte.x00).
    split; [reflexivity|]. simpl. split.
    + by intros ->%Byte.byte_dec_bl.
    + intros [= ->]. by apply Byte.byte_dec_lb.
  - intros [|c s]; [reflexivity|]. unfold is_abstract_socket_namespace.
    simpl. by rewrite ascii_is_zero_as_byte.
  - by intros [].
Qed.
End Addresses.

Section BaseTempDir.
Implicit Types (tempfile : Tempfile) (d : string).

Lemma SUN_PATH_MAX_posix sys_platform os_name :
  os_name ≠ "nt"%string →
  ∃ max, _SUN_PATH_MAX sys_platform os_name = Some max ∧ 92 ≤ max.
Proof.
  intros Hnt%String.eqb_neq. unfold _SUN_PATH_MAX. rewrite Hnt.
  destruct (String.eqb sys_platform _); [exists 108; split; [done|lia]|].
  destruct (String.prefix _ _ || _); [exists 104; split; [done|lia]|].
  exists 92. split; [done|lia].
Qed.

Lemma system_directory_fits max d :
  92 ≤ max → d ∈ dirlist → socket_path_fits max d = true.
Proof.
  intros Hmax Hd. unfold socket_path_fits. apply Z.leb_le.
  unfold dirlist in Hd. rewrite !elem_of_cons, elem_of_nil in Hd.
  destruct Hd as [->|[->|[->|[]]]]; simpl; lia.
Qed.

(** X12.  On Windows [_get_base_temp_dir] returns [None] without asking
    [tempfile].  Elsewhere, with a [tempfile] whose default directory is one
    of the candidates it was given, it never raises (the assertion holds on
    every platform), and the directory it returns is short enough for the
    socket paths in all cases but one: the directory of [gettempdir()] is
    too long and no system directory is usable, which it warns about.  A
    short enough [gettempdir()] is returned without a warning; a system
    directory is returned, with a warning, only when [gettempdir()] is too
    long. *)
Theorem base_temp_dir_fits_socket_paths sys_platform os_name tempfile :
  (os_name = "nt"%string →
     _get_base_temp_dir sys_platform os_name tempfile = (Returned None, [])) ∧
  (os_name ≠ "nt"%string →
   (∀ d, _get_default_tempdir tempfile dirlist = Some d → d ∈ dirlist) →
   ∃ max d warnings,
     _SUN_PATH_MAX sys_platform os_name = Some max ∧
     _get_base_temp_dir sys_platform os_name tempfile =
       (Returned (Some d), warnings) ∧
     ((socket_path_fits max d = true ∧ d = gettempdir tempfile ∧
       warnings = []) ∨
      (socket_path_fits max d = true ∧
       socket_path_fits max (gettempdir tempfile) = false ∧
       _get_default_tempdir tempfile dirlist = Some d ∧
       warnings =
         [ignoring_user_defined_temporary_directory (gettempdir tempfile)]) ∨
      (socket_path_fits max d = false ∧ d = gettempdir tempfile ∧
       _get_default_tempdir tempfile dirlist = None ∧
       warnings =
         [temporary_directory_not_usable (gettempdir tempfile) dirlist]))).
Proof.
  split.
  - intros ->. reflexivity.
  - intros Hnt Hdefault.
    destruct (SUN_PATH_MAX_posix sys_platform os_name Hnt) as (max & Hmax & Hle).
    exists max. unfold _get_base_temp_dir. rewrite Hmax.
    apply String.eqb_neq in Hnt. rewrite Hnt.
    destruct (socket_path_fits max (gettempdir tempfile)) eqn:Hfits.
    { exists (gettempdir tempfile), []. split; [done|]. split; [done|].
      left. auto. }
    destruct (_get_default_tempdir tempfile dirlist) as [d|] eqn:Hd.
    + rewrite (system_directory_fits max d Hle (Hdefault d eq_refl)).
      exists d, [ignoring_user_defined_temporary_directory (gettempdir tempfile)].
      split; [done|]. split; [done|]. right; left.
      split; [|done]. apply system_directory_fits; auto.
    + exists (gettempdir tempfile),
        [temporary_directory_not_usable (gettempdir tempfile) dirlist].
      split; [done|]. split; [done|]. right; right. auto.
Qed.
End BaseTempDir.

Section TempDirFacts.
Context {World : Type} {env : Environment World} (T : TempDirs World).
Implicit Types (s : State World) (d : string).

Lemma current_config_cases s :
  (current_process (world s) ≠ None ∧
   current_config s = (Returned tt, s, [])) ∨
  (current_process (world s) = None ∧
   current_config s = (Propagated (mkExn AttributeError []), s, [])).
Proof.
  unfold current_config. unfold_monad.
  destruct (current_process (world s)); [left|right]; done.
Qed.

(** X13.  A call of [get_temp_dir] that returns leaves the directory in the
    configuration of the process, so that the next call returns the same
    directory and changes nothing (given a configuration that keeps what is
    stored in it).  The call that creates the directory registers exactly
    one finalizer for it, without an owner, under priority -100: a run of
    the finalizers of priority at least 0 leaves it, a full run takes it.
    A call that finds the directory in the configuration changes nothing.
    Either way the invariant of the module is kept. *)
Theorem temp_dir_is_created_once s d s1 t1 :
  (∀ v w, config_tempdir T (set_config_tempdir T v w) = v) →
  get_temp_dir T s = (Returned d, s1, t1) →
  t1 = [] ∧
  config_tempdir T (world s1) = Some d ∧
  (current_process (world s1) ≠ None →
   get_temp_dir T s1 = (Returned d, s1, [])) ∧
  (wf s → wf s1) ∧
  match config_tempdir T (world s) with
  | Some d0 => d0 = d ∧ s1 = s
  | None =>
      let key := (Some (-100), _finalizer_counter s) in
      heap s1 = heap s ++
        [mkFinalize None (Some (remove_temp_dir T))
           (Some [PyObj (shutil_rmtree T); PyStr d]) (Some [])
           (Some key) (os_getpid s)] ∧
      _finalizer_registry s1 =
        <[key := length (heap s)]> (_finalizer_registry s) ∧
      selects (Some 0) key = false ∧ selects None key = true
  end.
Proof.
  intros Hconfig Hcall.
  assert (∀ s0, config_tempdir T (world s0) = Some d →
            current_process (world s0) ≠ None →
            get_temp_dir T s0 = (Returned d, s0, [])) as Hmemo.
  { intros s0 Hd Hp. unfold get_temp_dir.
    destruct (current_config_cases s0) as [[_ Hc]|[Hc _]]; [|done].
    unfold mbind, M_bind, bind. rewrite Hc. unfold get at 1.
    by rewrite Hd. }
  unfold get_temp_dir in Hcall.
  destruct (current_config_cases s) as [[Hp Hc]|[_ Hc]];
    unfold mbind, M_bind, bind in Hcall; rewrite Hc in Hcall;
    [|done].
  unfold get at 1 in Hcall.
  destruct (config_tempdir T (world s)) as [d0|] eqn:Hd0.
  { unfold mret, M_ret, ret in Hcall. simplify_eq/=.
    split; [done|]. split; [done|]. split; [by apply Hmemo|]. done. }
  destruct (_get_base_temp_dir _ _ _) as [[base|e] warnings]; [|done].
  unfold on_world, modify, of_result, mret, M_ret, ret in Hcall.
  simpl in Hcall.
  destruct (mkdtemp T base _) as [[tempdir|e] w1] eqn:Hmk; [|done].
  simpl in Hcall.
  match type of Hcall with
  | context [current_config ?s0] =>
      destruct (current_config_cases s0) as [[Hp1 Hc1]|[_ Hc1]];
        rewrite Hc1 in Hcall; [|done]
  end.
  simpl in Hcall. simplify_eq/=.
  split; [done|]. rewrite Hconfig. split; [done|].
  split; [intros Hp2; apply Hmemo; [by simpl; rewrite Hconfig|done]|].
  split; [|done].
  intros Hwf. apply wf_set_world.
  match goal with
  | |- wf (_ (_ (_ ?s0))) =>
      apply (wf_registered_state s0 None (remove_temp_dir T)
        [PyObj (shutil_rmtree T); PyStr d] None (PyInt (-100)))
  end.
  by do 3 apply wf_set_world.
Qed.
End TempDirFacts.

(** ** The further properties on concrete states *)

Section ConcreteExtras.
Import Demo Scenarios TempDemo.

(** The second of four instances is invoked; the third is untouched. *)
Lemma invocation_leaves_other_instances_witness :
  wf four_registered ∧
  let '(r, s', t) := Finalize.__call__ 1%nat four_registered in
  (∀ f, f ∈ callbacks_called t → f = 1%nat) ∧
  heap s' !! 2%nat = heap four_registered !! 2%nat ∧
  Finalize.still_active 2%nat s' = Finalize.still_active 2%nat four_registered.
Proof.
  split; [apply wf_four_registered|].
  destruct (Finalize.__call__ 1%nat four_registered) as [[r s'] t] eqn:Heq.
  destruct (invocation_leaves_other_instances four_registered 1%nat r s' t
              wf_four_registered Heq) as [Hcb Hfr].
  split; [exact Hcb|]. apply Hfr. lia.
Defined.



(** A run with threshold 6 over priorities 10, 10, 5 and none: the third
    instance stays. *)
Lemma threshold_run_keeps_the_rest_witness :
  wf four_registered ∧
  finalizer_registry_bound four_registered = true ∧
  (_run_finalizers (Some 6) four_registered).1.1 = Returned tt ∧
  let s' := (_run_finalizers (Some 6) four_registered).1.2 in
  let t := (_run_finalizers (Some 6) four_registered).2 in
  _finalizer_registry s' !! (Some 10, 0%nat) = None ∧
  (2%nat ∉ callbacks_called t) ∧
  Finalize.still_active 2%nat s' = true.
Proof.
  assert ((_run_finalizers (Some 6) four_registered).1.1 = Returned tt)
    as Hret by (by vm_compute).
  split; [apply wf_four_registered|]. split; [reflexivity|].
  split; [exact Hret|].
  destruct (_run_finalizers (Some 6) four_registered) as [[r s'] t] eqn:Heq.
  simpl in Hret. subst r. simpl.
  destruct (threshold_run_keeps_the_rest four_registered 6 s' t
              wf_four_registered eq_refl Heq) as [Hreg Hrest].
  split; [exact (Hreg (Some 10, 0%nat))|].
  assert (_finalizer_registry four_registered !! (Some 5, 2%nat) = Some 2%nat)
    as Hthird by (by vm_compute).
  destruct (Hrest (Some 5, 2%nat) 2%nat Hthird eq_refl) as (Hcb & _ & Hact).
  split; [exact Hcb|exact Hact].
Defined.

(** A full run over the four instances: the fourth, without a priority, is
    not called. *)
Lemma full_run_drops_unprioritised_witness :
  wf four_registered ∧
  finalizer_registry_bound four_registered = true ∧
  _finalizer_registry four_registered !! (None, 3%nat) = Some 3%nat ∧
  let t := (_run_finalizers None four_registered).2 in
  (3%nat ∉ finalizers_invoked t) ∧ (3%nat ∉ callbacks_called t).
Proof.
  assert (_finalizer_registry four_registered !! (None, 3%nat) = Some 3%nat)
    as Hreg by (by vm_compute).
  split; [apply wf_four_registered|]. split; [reflexivity|].
  split; [exact Hreg|].
  destruct (_run_finalizers None four_registered) as [[r s'] t] eqn:Heq.
  simpl.
  destruct (full_run_drops_unprioritised four_registered 3%nat 3%nat r s' t
              wf_four_registered eq_refl Hreg Heq) as (Hinv & Hcb & _).
  split; [exact Hinv|exact Hcb].
Defined.

(** The exit function over the four instances and the two children. *)
Lemma exit_function_phases_witness :
  wf four_registered ∧
  finalizer_registry_bound four_registered = true ∧
  not_exiting four_registered = true ∧
  (_exit_function four_registered).1.1 = Returned tt ∧
  _finalizer_registry (_exit_function four_registered).1.2 = ∅.
Proof.
  assert ((_exit_function four_registered).1.1 = Returned tt)
    as Hret by (by vm_compute).
  split; [apply wf_four_registered|]. split; [reflexivity|].
  split; [reflexivity|]. split; [exact Hret|].
  destruct (_exit_function four_registered) as [[r s'] t] eqn:Heq.
  simpl in Hret. subst r. simpl.
  destruct (exit_function_phases four_registered s' t wf_four_registered
              eq_refl eq_refl Heq) as (t1 & t2 & t3 & Hrest).
  exact (proj2 (proj2 (proj2 (proj2 (proj2 (proj2 (proj2 Hrest))))))).
Defined.

(** An after-fork run over two entries, the first of which raises. *)
Lemma after_fork_run_consumes_nothing_witness :
  let s' := (_run_after_forkers failing_registered).1.2 in
  _afterfork_registry s' = _afterfork_registry failing_registered ∧
  _finalizer_registry s' = _finalizer_registry failing_registered ∧
  heap s' = heap failing_registered.
Proof.
  destruct (_run_after_forkers failing_registered) as [[r s'] t] eqn:Heq.
  simpl.
  destruct (after_fork_run_consumes_nothing failing_registered r s' t Heq)
    as (_ & Hafter & _ & Hreg & Hheap & _).
  split; [exact Hafter|]. split; [exact Hreg|exact Hheap].
Defined.

(** The exit function, called after teardown with four entries left. *)
Lemma exit_function_after_teardown_witness :
  _exiting torn_down = None ∧
  finalizer_registry_bound torn_down = false ∧
  current_process (world torn_down) = None ∧
  is_exiting torn_down = true ∧
  (_exit_function torn_down).1.1 = Returned tt.
Proof.
  assert (_exiting torn_down = None) as He by reflexivity.
  assert (finalizer_registry_bound torn_down = false) as Hb by reflexivity.
  assert (current_process (world torn_down) = None) as Hp by reflexivity.
  split; [exact He|]. split; [exact Hb|]. split; [exact Hp|].
  destruct (exit_function_after_teardown torn_down He Hb Hp)
    as (Hexiting & Hexit & _).
  split; [exact Hexiting|]. by rewrite Hexit.
Defined.

(** On Linux, a user-defined directory of 109 characters gives way to
    [/tmp]. *)
Lemma base_temp_dir_fits_socket_paths_witness :
  "posix"%string ≠ "nt"%string ∧
  (∀ d, _get_default_tempdir long_tempfile dirlist = Some d → d ∈ dirlist) ∧
  ∃ max d warnings,
    _get_base_temp_dir "linux" "posix" long_tempfile =
      (Returned (Some d), warnings) ∧
    _SUN_PATH_MAX "linux" "posix" = Some max ∧
    (socket_path_fits max d = true ∨ warnings ≠ []).
Proof.
  assert ("posix"%string ≠ "nt"%string) as Hnt by done.
  assert (∀ d, _get_default_tempdir long_tempfile dirlist = Some d →
               d ∈ dirlist) as Hdefault.
  { intros d [= <-]. left. }
  split; [exact Hnt|]. split; [exact Hdefault|].
  destruct (proj2 (base_temp_dir_fits_socket_paths "linux" "posix"
                     long_tempfile) Hnt Hdefault)
    as (max & d & warnings & Hmax & Hbase & Hcases).
  exists max, d, warnings. split; [exact Hbase|]. split; [exact Hmax|].
  destruct Hcases as [(Hfits & _)|[(Hfits & _)|(_ & _ & _ & ->)]];
    [by left|by left|by right].
Defined.

(** The first call of [get_temp_dir] in a fresh process, and the second. *)
Lemma temp_dir_is_created_once_witness :
  (∀ v w, config_tempdir temp_dirs (set_config_tempdir temp_dirs v w) = v) ∧
  (get_temp_dir temp_dirs temp_initial).1.1 = Returned "/tmp/pymp-abcdefgh"%string ∧
  let s1 := (get_temp_dir temp_dirs temp_initial).1.2 in
  get_temp_dir temp_dirs s1 = (Returned "/tmp/pymp-abcdefgh"%string, s1, []) ∧
  length (heap s1) = 1%nat.
Proof.
  assert (∀ v w, config_tempdir temp_dirs (set_config_tempdir temp_dirs v w) = v)
    as Hconfig by done.
  assert ((get_temp_dir temp_dirs temp_initial).1.1 =
            Returned "/tmp/pymp-abcdefgh"%string) as Hret by (by vm_compute).
  split; [exact Hconfig|]. split; [exact Hret|].
  destruct (get_temp_dir temp_dirs temp_initial) as [[r s1] t1] eqn:Heq.
  simpl in Hret. subst r. simpl.
  destruct (temp_dir_is_created_once temp_dirs temp_initial _ s1 t1
              Hconfig Heq) as (_ & _ & Hagain & _ & Hnew).
  split; [by apply Hagain|].
  simpl in Hnew. destruct Hnew as (-> & _). reflexivity.
Defined.
End ConcreteExtras.
